(** * libsql_client.sqlite_driver: the SQLite driver of the libsql client

    A shallow embedding of [sqlite_driver.py] and the properties of its
    batch executor [_batch] and of the serialized adapter [_SqliteDriver].

    - The [sqlite3] connection is an interface ([Sqlite3]): the driver is
      verified for every engine behind it.
    - [_batch] is written in a state-and-exception monad over the connection
      handle; every call made on the handle is recorded in a log.
    - [_SqliteDriver.batch] is a transition system over cooperative tasks
      that share one [asyncio.Lock] and one connection; the cancellation of
      a call and [_SqliteDriver.close] are events of that system. *)

From Stdlib Require Import ZArith Strings.Byte.
From stdpp Require Import gmap strings list.

(** * Data model *)

(** Values of a row, as the engine returns them. *)
Inductive Value :=
| VNull
| VInteger (z : Z)
| VReal (bits : Z)
| VText (s : string)
| VBlob (b : list byte).

(** The parameters bound to a statement: a sequence or a mapping. *)
Inductive Params :=
| Positional (vs : list Value)
| Named (kvs : list (string * Value)).

(** Modelled from the spec: [_RawStmt] of [driver.py], "an immutable pair of
    (SQL text, positional/named parameter values)"; [_batch] reads the two
    fields. *)
Record _RawStmt := { sql : string; params : Params }.

(** Python exceptions that can cross [_batch].  [DatabaseError] stands for
    [sqlite3.DatabaseError] and its subclasses, which is what the [except]
    clause of [_batch] matches; [ClientResponseError] is the class of
    [errors.py], built from a message; [OtherError] is any exception outside
    the three named classes.  [str(e)] is the carried message. *)
Inductive PyExn :=
| DatabaseError (msg : string)
| ClientResponseError (message : string)
| TypeError (msg : string)
| OtherError (cls msg : string).

(** The result of a Python call: a value or a raised exception. *)
Inductive Outcome (A : Type) :=
| Return (a : A)
| Raise (e : PyExn).
Arguments Return {A} a.
Arguments Raise {A} e.

(** One entry of [cursor.description]: a 7-tuple whose item 0 is the column
    name (the other six are [None] in [sqlite3]). *)
Record Descr := { descr_name : string }.

(** [sqlite3.Cursor] after [execute]: [description] is [None] for a statement
    that produces no columns; [fetchall()] yields the remaining rows or
    raises. *)
Record Cursor := {
  description : option (list Descr);
  fetchall : Outcome (list (list Value))
}.

(** Modelled from the spec: [Row] of [result.py], "a fixed-size ordered
    sequence of column values plus a lookup structure mapping column name to
    positional index", built in [_batch] as [Row(column_idxs, row)]. *)
Record Row := { column_idxs : gmap string nat; values : list Value }.

(** Modelled from the spec: [ResultSet] of [result.py], "an ordered sequence
    of column names paired with an ordered sequence of Row values", built in
    [_batch] as [ResultSet(columns, rows)]. *)
Record ResultSet := { columns : list string; rows : list Row }.

(** Modelled from the spec: the lookup of a row by position, which reads
    the sequence of values; [None] is Python's [IndexError]. *)
Definition Row_by_index (r : Row) (i : nat) : option Value := values r !! i.

(** Modelled from the spec: the lookup of a row by column name, which goes
    through the lookup structure to a position and reads the sequence of
    values there; [None] is Python's [KeyError] or [IndexError]. *)
Definition Row_by_name (r : Row) (name : string) : option Value :=
  i ← column_idxs r !! name; values r !! i.

(** [enumerate(columns)] *)
Definition enumerate {A} (l : list A) : list (nat * A) := imap pair l.

(** [{name: idx for (idx, name) in enumerate(columns)}]: entries are stored
    left to right, a later one replacing an earlier one of the same name. *)
Definition dict_of_columns (columns : list string) : gmap string nat :=
  foldl (λ d p, <[p.2 := p.1]> d) ∅ (enumerate columns).

(** * The connection interface *)

(** [sqlite3.Connection]: the two methods [_batch] calls. Each takes the
    state of the handle and returns the new state with the call's result. *)
Class Sqlite3 := {
  Connection : Type;
  conn_rollback : Connection → Connection * Outcome unit;
  conn_execute : Connection → string → Params → Connection * Outcome Cursor
}.

(** Calls made on the handle, in the order they are made. *)
Inductive Call :=
| CallRollback
| CallExecute (stmt : _RawStmt).

(** * The executor monad *)

Section Executor.
Context `{Sqlite3}.

Record World := { handle : Connection; calls : list Call }.

Definition M (A : Type) : Type := World → World * Outcome A.

#[export] Instance M_ret : MRet M := λ A a w, (w, Return a).
#[export] Instance M_bind : MBind M := λ A B f m w,
  match m w with
  | (w', Return a) => f a w'
  | (w', Raise e) => (w', Raise e)
  end.

Definition raise {A} (e : PyExn) : M A := λ w, (w, Raise e).

(** [try: body / except Exception as e: handler(e)] *)
Definition try_except {A} (body : M A) (handler : PyExn → M A) : M A := λ w,
  match body w with
  | (w', Raise e) => handler e w'
  | r => r
  end.

Definition lift_outcome {A} (o : Outcome A) : M A := λ w, (w, o).

(** [conn.rollback()] *)
Definition rollback : M unit := λ w,
  let '(c, o) := conn_rollback (handle w) in
  ({| handle := c; calls := calls w ++ [CallRollback] |}, o).

(** [conn.execute(stmt.sql, stmt.params)] *)
Definition execute (stmt : _RawStmt) : M Cursor := λ w,
  let '(c, o) := conn_execute (handle w) (sql stmt) (params stmt) in
  ({| handle := c; calls := calls w ++ [CallExecute stmt] |}, o).

(** [tuple(descr[0] for descr in cursor.description)]: iterating [None]
    raises [TypeError]. *)
Definition column_names (cursor : Cursor) : M (list string) :=
  match description cursor with
  | Some descrs => mret (descr_name <$> descrs)
  | None => raise (TypeError "'NoneType' object is not iterable")
  end.

(** The handler of [_batch]: [except sqlite3.DatabaseError as e]. *)
Definition on_execute_error (e : PyExn) : M Cursor :=
  match e with
  | DatabaseError msg => raise (ClientResponseError msg)
  | _ => raise e
  end.

(** One iteration of the loop body, up to the new result set. *)
Definition run_stmt (stmt : _RawStmt) : M ResultSet :=
  cursor ← try_except (execute stmt) on_execute_error;
  columns ← column_names cursor;
  let column_idxs := dict_of_columns columns in
  fetched ← lift_outcome (fetchall cursor);
  let rows := Build_Row column_idxs <$> fetched in
  mret (Build_ResultSet columns rows).

(** [for stmt in stmts: ... result_sets.append(...)] then
    [return result_sets] *)
Fixpoint for_stmts (stmts : list _RawStmt) (result_sets : list ResultSet)
  : M (list ResultSet) :=
  match stmts with
  | [] => mret result_sets
  | stmt :: stmts' =>
      result_set ← run_stmt stmt;
      for_stmts stmts' (result_sets ++ [result_set])
  end.

(** [_batch(conn, stmts)]: the rollback, then the loop from an empty list. *)
Definition _batch (stmts : list _RawStmt) : M (list ResultSet) :=
  rollback;; for_stmts stmts [].

(** [_batch(conn, stmts)] on a handle in state [conn], with an empty log. *)
Definition batch_on (conn : Connection) (stmts : list _RawStmt)
  : World * Outcome (list ResultSet) :=
  _batch stmts {| handle := conn; calls := [] |}.

End Executor.

(** * Successful statements

    What it means for the statements of a batch to execute successfully one
    after the other, stated on the engine alone. *)

Section Successful.
Context `{Sqlite3}.

(** The result set of a statement whose cursor has the description
    entries [descrs] and the rows [fetched]. *)
Definition result_set (descrs : list Descr) (fetched : list (list Value))
  : ResultSet :=
  let columns := descr_name <$> descrs in
  {| columns := columns; rows := Build_Row (dict_of_columns columns) <$> fetched |}.

(** [Produces c stmts c' rss]: from the handle state [c], every statement
    of [stmts] executes in turn, has a description and yields its rows;
    the i-th result set of [rss] is the one of the i-th statement and [c']
    is the state the last one leaves. *)
Inductive Produces : Connection → list _RawStmt → Connection → list ResultSet → Prop :=
| Produces_nil c : Produces c [] c []
| Produces_cons c stmt stmts c1 c2 cursor descrs fetched rss :
    conn_execute c (sql stmt) (params stmt) = (c1, Return cursor) →
    description cursor = Some descrs →
    fetchall cursor = Return fetched →
    Produces c1 stmts c2 rss →
    Produces c (stmt :: stmts) c2 (result_set descrs fetched :: rss).

(** The state of the world after [stmt] was executed on it. *)
Definition after_execute (w : World) (stmt : _RawStmt) (c : Connection) : World :=
  {| handle := c; calls := calls w ++ [CallExecute stmt] |}.

End Successful.

(** * The serialized adapter

    [_SqliteDriver.batch] is a coroutine: [async with self._conn_lock]
    suspends until the lock is free and takes it, [run_in_executor] hands
    [_batch] to a worker thread and suspends until it has returned or raised,
    and leaving the [async with] block releases the lock, whichever way the
    block is left.  While one call is suspended the event loop runs the
    others, so the driver is a transition system whose steps are taken by
    the calls in any order.  [driver_step] has the steps of calls that run
    undisturbed; the cancellation of a call and [close] are steps of
    [driver_event], further down. *)

Section Adapter.
Context `{Sqlite3}.

(** Where one call of [batch] stands:
    - [Waiting]: suspended at [async with self._conn_lock];
    - [Dispatched]: the lock is taken and [_batch] is handed to the
      executor, not started yet;
    - [InLoop]: the worker is in the loop of [_batch], with [stmts] still to
      run and [result_sets] collected;
    - [Finished]: [_batch] has returned or raised, the lock is still held;
    - [Completed]: the lock is released and the caller has the outcome. *)
Inductive Task :=
| Waiting (stmts : list _RawStmt)
| Dispatched (stmts : list _RawStmt)
| InLoop (stmts : list _RawStmt) (result_sets : list ResultSet)
| Finished (o : Outcome (list ResultSet))
| Completed (o : Outcome (list ResultSet)).

(** The calls that are between taking and releasing the lock. *)
Definition holds_lock (t : Task) : bool :=
  match t with
  | Dispatched _ | InLoop _ _ | Finished _ => true
  | Waiting _ | Completed _ => false
  end.

(** [_SqliteDriver]: its connection and its lock ([True] when taken), the
    calls of [batch] made so far (a call is named by its position in
    [tasks]) and the calls made on the handle, each with the call of [batch]
    that made it.  The executor is the worker steps of the tasks. *)
Record _SqliteDriver := {
  _conn : Connection;
  _conn_lock : bool;
  tasks : list Task;
  events : list (nat * Call)
}.

(** [_SqliteDriver(path)]: a fresh lock, no call yet. *)
Definition init (conn : Connection) : _SqliteDriver :=
  {| _conn := conn; _conn_lock := false; tasks := []; events := [] |}.

(** Where a call stands after a step of its worker: on with [next], or at
    the end of [_batch] with the exception the step raised. *)
Definition settle {A} (next : A → Task) (r : World * Outcome A) : World * Task :=
  match r with
  | (w, Return a) => (w, next a)
  | (w, Raise e) => (w, Finished (Raise e))
  end.

(** The worker thread resumes [_batch] up to its next call on the handle:
    the leading rollback, one iteration of the loop, or the final
    [return result_sets]. *)
Definition resume (t : Task) (w : World) : option (World * Task) :=
  match t with
  | Dispatched stmts => Some (settle (λ _, InLoop stmts []) (rollback w))
  | InLoop [] result_sets => Some (w, Finished (Return result_sets))
  | InLoop (stmt :: stmts) result_sets =>
      Some (settle (λ rs, InLoop stmts (result_sets ++ [rs])) (run_stmt stmt w))
  | _ => None
  end.

(** What can happen next: a caller calls [batch(stmts)]; call [i] takes the
    free lock; the worker of call [i] moves on; call [i] leaves the
    [async with] block. *)
Inductive Action :=
| Submit (stmts : list _RawStmt)
| Acquire (i : nat)
| Work (i : nat)
| Release (i : nat).

(** One step of a call of [batch] that nobody cancels; [None] when the
    action cannot happen in [d]. *)
Definition driver_step (a : Action) (d : _SqliteDriver) : option _SqliteDriver :=
  match a with
  | Submit stmts =>
      Some {| _conn := _conn d; _conn_lock := _conn_lock d;
              tasks := tasks d ++ [Waiting stmts]; events := events d |}
  | Acquire i =>
      match tasks d !! i with
      | Some (Waiting stmts) =>
          if _conn_lock d then None
          else Some {| _conn := _conn d; _conn_lock := true;
                       tasks := <[i := Dispatched stmts]> (tasks d);
                       events := events d |}
      | _ => None
      end
  | Work i =>
      t ← tasks d !! i;
      '(w, t') ← resume t {| handle := _conn d; calls := [] |};
      Some {| _conn := handle w; _conn_lock := _conn_lock d;
              tasks := <[i := t']> (tasks d);
              events := events d ++ (pair i <$> calls w) |}
  | Release i =>
      match tasks d !! i with
      | Some (Finished o) =>
          Some {| _conn := _conn d; _conn_lock := false;
                  tasks := <[i := Completed o]> (tasks d);
                  events := events d |}
      | _ => None
      end
  end.

(** A schedule is run action by action. *)
Fixpoint run (schedule : list Action) (d : _SqliteDriver) : option _SqliteDriver :=
  match schedule with
  | [] => Some d
  | a :: schedule' => d' ← driver_step a d; run schedule' d'
  end.

(** The steps of call [i] of [batch] in program order, with [m] steps of
    its worker between taking and releasing the lock. *)
Definition batch (i m : nat) : list Action :=
  Acquire i :: replicate m (Work i) ++ [Release i].

(** The calls on the handle are serial when no call of one task lies
    between two calls of another. *)
Definition serial (ids : list nat) : Prop :=
  ∀ p q r a b, p < q → q < r →
    ids !! p = Some a → ids !! q = Some b → ids !! r = Some a → a = b.

(** Every call of task [a] on the handle comes before every call of task
    [b]. *)
Definition precedes (ids : list nat) (a b : nat) : Prop :=
  ∀ p q, ids !! p = Some a → ids !! q = Some b → p < q.

(** The world [w] with the calls [l] put in front of its log. *)
Definition prepend (l : list Call) (w : World) : World :=
  {| handle := handle w; calls := l ++ calls w |}.

(** The driver [d] once the worker of call [i] has run [_batch] to the end
    [r], from the handle of [d] and an empty log. *)
Definition finished_by (d : _SqliteDriver) (i : nat)
    (r : World * Outcome (list ResultSet)) : _SqliteDriver :=
  {| _conn := handle r.1; _conn_lock := _conn_lock d;
     tasks := <[i := Finished r.2]> (tasks d);
     events := events d ++ (pair i <$> calls r.1) |}.

(** An upper bound on the steps the worker of a call still has to take. *)
Definition remaining (t : Task) : nat :=
  match t with
  | Dispatched stmts => length stmts + 2
  | InLoop stmts _ => length stmts + 1
  | _ => 0
  end.

(** A call has started once it has taken the lock. *)
Definition started (t : Task) : bool :=
  match t with
  | Waiting _ => false
  | _ => true
  end.

(** Every call on the handle that follows a call of task [i] is a call of
    task [i]. *)
Definition trailing (ids : list nat) (i : nat) : Prop :=
  ∀ p q a, p < q → ids !! p = Some i → ids !! q = Some a → a = i.

(** What holds of the driver in every state it can reach. *)
Record driver_inv (d : _SqliteDriver) : Prop := {
  inv_locked : _conn_lock d = true →
    ∃ i t, tasks d !! i = Some t ∧ holds_lock t = true;
  inv_free : _conn_lock d = false →
    ∀ i t, tasks d !! i = Some t → holds_lock t = false;
  inv_unique : ∀ i j ti tj,
    tasks d !! i = Some ti → tasks d !! j = Some tj →
    holds_lock ti = true → holds_lock tj = true → i = j;
  inv_serial : serial (events d).*1;
  inv_trailing : ∀ i t,
    tasks d !! i = Some t → holds_lock t = true → trailing (events d).*1 i;
  inv_started : ∀ i, i ∈ (events d).*1 →
    ∃ t, tasks d !! i = Some t ∧ started t = true
}.

End Adapter.

(** * A reference engine

    The engine of the scenario of the specification: one table [t(id)] behind
    a handle opened with [isolation_level=None].  It follows the [sqlite3]
    module on the statements of the scenario:
    - an [INSERT] produces no columns, so its cursor has [description = None]
      and no rows, and the row is stored at once (autocommit);
    - a [SELECT] has one description entry per projected column, duplicate
      names included;
    - no statement opens a transaction, so [rollback()] changes nothing;
    - every call on a closed handle raises [sqlite3.ProgrammingError], a
      subclass of [sqlite3.DatabaseError];
    - it parses the three statements below and rejects any other text with
      [sqlite3.OperationalError], also a [sqlite3.DatabaseError]. *)
Module Reference.

Record Db := { closed : bool; t_rows : list (list Value) }.

Definition closed_error : PyExn :=
  DatabaseError "Cannot operate on a closed database.".

Definition db_rollback (db : Db) : Db * Outcome unit :=
  if closed db then (db, Raise closed_error) else (db, Return ()).

Definition db_execute (db : Db) (sql : string) (params : Params)
  : Db * Outcome Cursor :=
  if closed db then (db, Raise closed_error)
  else if String.eqb sql "INSERT INTO t VALUES (1)" then
    ({| closed := false; t_rows := t_rows db ++ [[VInteger 1]] |},
     Return {| description := None; fetchall := Return [] |})
  else if String.eqb sql "SELECT * FROM t" then
    (db, Return {| description := Some [{| descr_name := "id" |}];
                   fetchall := Return (t_rows db) |})
  else if String.eqb sql "SELECT 1 AS a, 2 AS a" then
    (db, Return {| description := Some [{| descr_name := "a" |};
                                        {| descr_name := "a" |}];
                   fetchall := Return [[VInteger 1; VInteger 2]] |})
  else (db, Raise (DatabaseError ("near " +:+ sql +:+ ": syntax error"))).

#[export] Instance engine : Sqlite3 :=
  {| Connection := Db; conn_rollback := db_rollback; conn_execute := db_execute |}.

Definition stmt (text : string) : _RawStmt :=
  {| sql := text; params := Positional [] |}.

Definition empty_t : Db := {| closed := false; t_rows := [] |}.
Definition closed_db : Db := {| closed := true; t_rows := [] |}.

(** The row of [SELECT 1 AS a, 2 AS a] and the row of [SELECT * FROM t]
    once [1] is stored, as [_batch] builds them. *)
Definition row_1_2 : Row :=
  {| column_idxs := dict_of_columns ["a"; "a"]; values := [VInteger 1; VInteger 2] |}.

Definition row_1 : Row :=
  {| column_idxs := dict_of_columns ["id"]; values := [VInteger 1] |}.

(** Two calls of [batch]: the second call takes the lock first and runs to
    its end (its second statement fails), then the first call starts. *)
Definition two_batches : list Action :=
  [Submit [stmt "SELECT * FROM t"];
   Submit [stmt "SELECT * FROM t"; stmt "SELECT * FROM u"];
   Acquire 1; Work 1; Work 1; Work 1; Release 1;
   Acquire 0; Work 0; Work 0].

End Reference.

Import Reference.

(** * Two readings of the specification, as it states them *)

(** A failing leading rollback is reported as the response error that a
    failing statement is reported as. *)
Definition rollback_failure_is_response_error : Prop :=
  ∀ (E : Sqlite3) (conn c : Connection) (stmts : list _RawStmt) (msg : string),
    conn_rollback conn = (c, Raise (DatabaseError msg)) →
    (batch_on conn stmts).2 = Raise (ClientResponseError msg).

(** In every row of a returned result set, the value under a column name is
    the value at the position of that name in the column sequence. *)
Definition name_lookup_is_index_lookup : Prop :=
  ∀ (E : Sqlite3) (conn : Connection) (stmts : list _RawStmt) w rss rs row
    (i : nat) (name : string),
    batch_on conn stmts = (w, Return rss) →
    rs ∈ rss → row ∈ rows rs →
    columns rs !! i = Some name →
    Row_by_name row name = Row_by_index row i.

(** * Failures that [execute] does not report as a database error *)

(** The reference engine with two more statements:
    - a text that holds two statements, for which [execute] raises
      [sqlite3.Warning] (up to Python 3.11), which is not a
      [sqlite3.DatabaseError];
    - a [SELECT] that [execute] accepts and whose [fetchall] raises
      [sqlite3.OperationalError], as happens when a row that is computed
      while the rows are fetched overflows. *)
Module Faults.

Definition two_statements : PyExn :=
  OtherError "sqlite3.Warning" "You can only execute one statement at a time.".

Definition overflow : PyExn := DatabaseError "integer overflow".

Definition faulty_execute (db : Db) (sql : string) (params : Params)
  : Db * Outcome Cursor :=
  if closed db then db_execute db sql params
  else if String.eqb sql "SELECT * FROM t; SELECT * FROM t" then
    (db, Raise two_statements)
  else if String.eqb sql "SELECT abs(id) FROM t" then
    (db, Return {| description := Some [{| descr_name := "abs(id)" |}];
                   fetchall := Raise overflow |})
  else db_execute db sql params.

Definition faulty : Sqlite3 :=
  {| Connection := Db; conn_rollback := db_rollback; conn_execute := faulty_execute |}.

End Faults.

(** * What a call will have done, and what it has done *)

Section Atomic.
Context `{Sqlite3}.

(** Where the worker of a call that holds the lock ends when it is left to
    run from the handle state [c]: the world it leaves, with the calls it
    still makes, and the outcome of [_batch]. *)
Definition finish (t : Task) (c : Connection)
  : option (World * Outcome (list ResultSet)) :=
  match t with
  | Dispatched stmts => Some (batch_on c stmts)
  | InLoop stmts result_sets =>
      Some (for_stmts stmts result_sets {| handle := c; calls := [] |})
  | Finished o => Some ({| handle := c; calls := [] |}, o)
  | _ => None
  end.

(** The calls that call [i] of [batch] has made on the handle, in order. *)
Definition own_calls (i : nat) (evs : list (nat * Call)) : list Call :=
  omap (λ e, if decide (e.1 = i) then Some e.2 else None) evs.

(** Call [i], which stands at [t] in the driver [d], is on its way to
    [target], or has got there. *)
Definition tracks (i : nat) (t : Task) (d : _SqliteDriver)
    (target : World * Outcome (list ResultSet)) : Prop :=
  match t with
  | Completed o =>
      o = target.2 ∧ own_calls i (events d) = calls target.1
  | _ =>
      ∃ w o, finish t (_conn d) = Some (w, o) ∧
             target = (prepend (own_calls i (events d)) w, o)
  end.

(** Every call that has taken the lock took it at some point of the
    schedule, as a waiting call, and tracks [_batch] run on the handle as it
    was at that point. *)
Definition atomic_inv (conn : Connection) (schedule : list Action)
    (d : _SqliteDriver) : Prop :=
  ∀ i t, tasks d !! i = Some t → started t = true →
    ∃ s1 s2 d1 stmts,
      schedule = s1 ++ Acquire i :: s2 ∧
      run s1 (init conn) = Some d1 ∧
      tasks d1 !! i = Some (Waiting stmts) ∧
      tracks i t d (batch_on (_conn d1) stmts).

End Atomic.

(** * Cancellation and closing *)

(** [sqlite3.Connection.close], the method [_SqliteDriver.close] calls. *)
Class Sqlite3Close (E : Sqlite3) := {
  conn_close : Connection → Connection * Outcome unit
}.

(** [asyncio.CancelledError], raised in the coroutine of a call that is
    cancelled while it is suspended. *)
Definition CancelledError : PyExn := OtherError "asyncio.CancelledError" "".

Section Events.
Context {E : Sqlite3} {C : Sqlite3Close E}.

(** [_SqliteDriver.close]: [self._conn.close()], with no use of the lock. *)
Definition close (d : _SqliteDriver) : _SqliteDriver * Outcome unit :=
  let '(c, o) := conn_close (_conn d) in
  ({| _conn := c; _conn_lock := _conn_lock d; tasks := tasks d;
      events := events d |}, o).

(** The driver, and the workers that run on after their call was cancelled:
    a worker thread that is inside [_batch] cannot be stopped, it goes on
    from where it stands although its caller has left the [async with]
    block. *)
Record Running := { driver : _SqliteDriver; orphans : gmap nat Task }.

(** The driver after [_SqliteDriver(path)]. *)
Definition start (conn : Connection) : Running :=
  {| driver := init conn; orphans := ∅ |}.

(** The driver [d] once call [i] has left [batch] by [CancelledError];
    [lock] is the state of the lock after that. *)
Definition cancelled (d : _SqliteDriver) (i : nat) (lock : bool) : _SqliteDriver :=
  {| _conn := _conn d; _conn_lock := lock;
     tasks := <[i := Completed (Raise CancelledError)]> (tasks d);
     events := events d |}.

(** Call [i] is cancelled where it is suspended.
    - While it waits for the lock, it leaves the queue of the lock.
    - At [await loop.run_in_executor(...)], [CancelledError] leaves the
      [async with] block, which releases the lock.  A [_batch] that the
      executor has not started is withdrawn; one that has returned or raised
      is dropped; one that is in its loop goes on as an orphan. *)
Definition cancel (i : nat) (r : Running) : option Running :=
  match tasks (driver r) !! i with
  | Some (Waiting _) =>
      Some {| driver := cancelled (driver r) i (_conn_lock (driver r));
              orphans := orphans r |}
  | Some (Dispatched _) | Some (Finished _) =>
      Some {| driver := cancelled (driver r) i false; orphans := orphans r |}
  | Some (InLoop stmts result_sets) =>
      Some {| driver := cancelled (driver r) i false;
              orphans := <[i := InLoop stmts result_sets]> (orphans r) |}
  | _ => None
  end.

(** The worker of the cancelled call [i] moves on, as [Work] does for a
    call that holds the lock. *)
Definition orphan_work (i : nat) (r : Running) : option Running :=
  t ← orphans r !! i;
  '(w, t') ← resume t {| handle := _conn (driver r); calls := [] |};
  Some {| driver := {| _conn := handle w; _conn_lock := _conn_lock (driver r);
                       tasks := tasks (driver r);
                       events := events (driver r) ++ (pair i <$> calls w) |};
          orphans := <[i := t']> (orphans r) |}.

(** What can happen to the driver: a step of a call of [batch], the
    cancellation of a call, a step of the worker of a cancelled call, or a
    call of [close]. *)
Inductive Event :=
| Step (a : Action)
| Cancel (i : nat)
| Orphan (i : nat)
| Close.

Definition driver_event (e : Event) (r : Running) : option Running :=
  match e with
  | Step a =>
      d ← driver_step a (driver r); Some {| driver := d; orphans := orphans r |}
  | Cancel i => cancel i r
  | Orphan i => orphan_work i r
  | Close => Some {| driver := (close (driver r)).1; orphans := orphans r |}
  end.

Fixpoint run_events (evs : list Event) (r : Running) : option Running :=
  match evs with
  | [] => Some r
  | e :: evs' => r' ← driver_event e r; run_events evs' r'
  end.

End Events.

(** [close()] on the reference engine: the handle is closed, and closing a
    closed handle is no error. *)
Definition db_close (db : Db) : Db * Outcome unit :=
  ({| closed := true; t_rows := t_rows db |}, Return ()).

Definition engine_close : Sqlite3Close engine := {| conn_close := db_close |}.

(** Two calls of [batch]; the first is cancelled while its worker is between
    its two statements, the second takes the lock that the cancellation
    released, and both workers run on. *)
Definition cancelled_midway : list Event :=
  [Step (Submit [stmt "SELECT * FROM t"; stmt "SELECT * FROM t"]);
   Step (Submit [stmt "SELECT 1 AS a, 2 AS a"]);
   Step (Acquire 0); Step (Work 0); Step (Work 0);
   Cancel 0;
   Step (Acquire 1); Step (Work 1);
   Orphan 0;
   Step (Work 1)].

(** * The state of the handle *)

Section HandleState.
Context `{Sqlite3}.

(** The state of the handle after the statements [executed] were executed
    on it one after the other, from the state [c]. *)
Definition handle_after (c : Connection) (executed : list _RawStmt) : Connection :=
  foldl (λ c stmt, (conn_execute c (sql stmt) (params stmt)).1) c executed.

End HandleState.

(** * Failures of a statement, as the specification states them *)

(** [str(e)]: the message an exception carries. *)
Definition str (e : PyExn) : string :=
  match e with
  | DatabaseError msg | ClientResponseError msg | TypeError msg
  | OtherError _ msg => msg
  end.

(** Whatever exception the execution of a statement raises, the batch stops
    there and raises a response error with the message of that exception. *)
Definition failing_statement_is_response_error : Prop :=
  ∀ (E : Sqlite3) (conn c0 c1 c2 : Connection) (pre post : list _RawStmt)
    (rss : list ResultSet) (stmt : _RawStmt) (e : PyExn),
    conn_rollback conn = (c0, Return ()) →
    Produces c0 pre c1 rss →
    conn_execute c1 (sql stmt) (params stmt) = (c2, Raise e) →
    batch_on conn (pre ++ stmt :: post) =
      ({| handle := c2; calls := CallRollback :: (CallExecute <$> pre ++ [stmt]) |},
       Raise (ClientResponseError (str e))).

(** The reference engine with one more statement, [SELECT ?] with one bound
    value: the [sqlite3] module raises [OverflowError], which is no
    [sqlite3.DatabaseError], when it binds an integer that does not fit in
    64 bits, and [sqlite3.ProgrammingError] when the number of bound values
    is not the number of placeholders. *)
Module Binding.

Definition int_too_large : PyExn :=
  OtherError "OverflowError" "Python int too large to convert to SQLite INTEGER".

Definition fits_int64 (v : Value) : bool :=
  match v with
  | VInteger z => ((- 2 ^ 63 <=? z) && (z <? 2 ^ 63))%Z
  | _ => true
  end.

Definition binding_execute (db : Db) (sql : string) (params : Params)
  : Db * Outcome Cursor :=
  if closed db then db_execute db sql params
  else if String.eqb sql "SELECT ?" then
    match params with
    | Positional [v] =>
        if fits_int64 v then
          (db, Return {| description := Some [{| descr_name := "?" |}];
                         fetchall := Return [[v]] |})
        else (db, Raise int_too_large)
    | _ => (db, Raise (DatabaseError "Incorrect number of bindings supplied."))
    end
  else db_execute db sql params.

Definition binding : Sqlite3 :=
  {| Connection := Db; conn_rollback := db_rollback; conn_execute := binding_execute |}.

(** [SELECT ?] with the value [2 ** 63] bound to it. *)
Definition select_big : _RawStmt :=
  {| sql := "SELECT ?"; params := Positional [VInteger (2 ^ 63)] |}.

End Binding.

(** * The executor: one statement *)

Section ExecutorFacts.
Context `{Sqlite3}.

Lemma run_stmt_returns w stmt c cursor descrs fetched :
  conn_execute (handle w) (sql stmt) (params stmt) = (c, Return cursor) →
  description cursor = Some descrs →
  fetchall cursor = Return fetched →
  run_stmt stmt w = (after_execute w stmt c, Return (result_set descrs fetched)).
Proof.
  intros Hexec Hdescr Hfetch.
  unfold run_stmt, mbind, M_bind, try_except, execute, column_names, lift_outcome.
  rewrite Hexec, Hdescr. cbn. by rewrite Hfetch.
Qed.

Lemma run_stmt_database_error w stmt c msg :
  conn_execute (handle w) (sql stmt) (params stmt) = (c, Raise (DatabaseError msg)) →
  run_stmt stmt w = (after_execute w stmt c, Raise (ClientResponseError msg)).
Proof.
  intros Hexec.
  unfold run_stmt, mbind, M_bind, try_except, execute.
  by rewrite Hexec.
Qed.

Lemma run_stmt_no_description w stmt c cursor :
  conn_execute (handle w) (sql stmt) (params stmt) = (c, Return cursor) →
  description cursor = None →
  run_stmt stmt w =
    (after_execute w stmt c, Raise (TypeError "'NoneType' object is not iterable")).
Proof.
  intros Hexec Hdescr.
  unfold run_stmt, mbind, M_bind, try_except, execute, column_names.
  by rewrite Hexec, Hdescr.
Qed.

(** Whatever happens, one iteration makes exactly one call: the [execute]
    of its statement. *)
Lemma run_stmt_calls w stmt :
  calls (run_stmt stmt w).1 = calls w ++ [CallExecute stmt].
Proof.
  unfold run_stmt, mbind, M_bind, try_except, execute, column_names, lift_outcome.
  destruct (conn_execute _ _ _) as [c [cursor|e]]; cbn.
  - destruct (description cursor); cbn; [|done].
    by destruct (fetchall cursor).
  - by destruct e.
Qed.

(** A result set that comes out of an iteration is built from a
    description and fetched rows. *)
Lemma run_stmt_result_set w stmt w' rs :
  run_stmt stmt w = (w', Return rs) →
  ∃ descrs fetched, rs = result_set descrs fetched.
Proof.
  unfold run_stmt, mbind, M_bind, try_except, execute, column_names, lift_outcome.
  destruct (conn_execute _ _ _) as [c [cursor|e]]; cbn.
  - destruct (description cursor) as [descrs|]; cbn; [|done].
    destruct (fetchall cursor) as [fetched|]; [|done].
    intros [= _ <-]. by exists descrs, fetched.
  - by destruct e.
Qed.

(** * The executor: the loop *)

Lemma for_stmts_cons stmt stmts acc w :
  for_stmts (stmt :: stmts) acc w =
    match run_stmt stmt w with
    | (w', Return rs) => for_stmts stmts (acc ++ [rs]) w'
    | (w', Raise e) => (w', Raise e)
    end.
Proof. reflexivity. Qed.

Lemma for_stmts_app pre post acc w :
  for_stmts (pre ++ post) acc w =
    match for_stmts pre acc w with
    | (w', Return acc') => for_stmts post acc' w'
    | (w', Raise e) => (w', Raise e)
    end.
Proof.
  revert acc w. induction pre as [|stmt pre IH]; intros acc w; [done|].
  rewrite <-app_comm_cons, !for_stmts_cons.
  destruct (run_stmt stmt w) as [w' [rs|e]]; [apply IH|done].
Qed.

Lemma for_stmts_produces stmts acc w c rss :
  Produces (handle w) stmts c rss →
  for_stmts stmts acc w =
    ({| handle := c; calls := calls w ++ (CallExecute <$> stmts) |},
     Return (acc ++ rss)).
Proof.
  intros Hp. remember (handle w) as c0 eqn:Hc0.
  revert acc w Hc0.
  induction Hp as [c|c stmt stmts c1 c2 cursor descrs fetched rss Hexec Hd Hf _ IH];
    intros acc w ->.
  - cbn. rewrite !app_nil_r. by destruct w.
  - rewrite for_stmts_cons, (run_stmt_returns _ _ _ _ _ _ Hexec Hd Hf).
    rewrite (IH _ (after_execute w stmt c1) eq_refl). cbn.
    by rewrite <-!app_assoc.
Qed.

Lemma Produces_length c stmts c' rss :
  Produces c stmts c' rss → length rss = length stmts.
Proof. induction 1; cbn; congruence. Qed.

Lemma for_stmts_calls stmts acc w :
  ∃ executed, executed `prefix_of` stmts ∧
    calls (for_stmts stmts acc w).1 = calls w ++ (CallExecute <$> executed).
Proof.
  revert acc w. induction stmts as [|stmt stmts IH]; intros acc w.
  - exists []. split; [done|]. cbn. by rewrite app_nil_r.
  - rewrite for_stmts_cons.
    pose proof (run_stmt_calls w stmt) as Hcalls.
    destruct (run_stmt stmt w) as [w' [rs|e]]; cbn in Hcalls.
    + destruct (IH (acc ++ [rs]) w') as (executed & Hpre & ->).
      exists (stmt :: executed). split; [by apply prefix_cons|].
      rewrite Hcalls. cbn. by rewrite <-app_assoc.
    + exists [stmt]. split; [|done].
      apply (prefix_cons stmt [] stmts), prefix_nil.
Qed.

Lemma run_stmt_handle w stmt :
  handle (run_stmt stmt w).1 = (conn_execute (handle w) (sql stmt) (params stmt)).1.
Proof.
  unfold run_stmt, mbind, M_bind, try_except, execute, column_names, lift_outcome.
  destruct (conn_execute _ _ _) as [c [cursor|e]]; cbn.
  - destruct (description cursor); cbn; [|done].
    by destruct (fetchall cursor).
  - by destruct e.
Qed.

(** The loop executes a leading part of the statements, each on the state
    of the handle that the one before it left. *)
Lemma for_stmts_trace stmts acc w :
  ∃ executed, executed `prefix_of` stmts ∧
    calls (for_stmts stmts acc w).1 = calls w ++ (CallExecute <$> executed) ∧
    handle (for_stmts stmts acc w).1 = handle_after (handle w) executed.
Proof.
  revert acc w. induction stmts as [|stmt stmts IH]; intros acc w.
  - exists []. split; [done|]. cbn. by rewrite app_nil_r.
  - rewrite for_stmts_cons.
    pose proof (run_stmt_calls w stmt) as Hcalls.
    pose proof (run_stmt_handle w stmt) as Hhandle.
    destruct (run_stmt stmt w) as [w' [rs|e]]; cbn in Hcalls, Hhandle.
    + destruct (IH (acc ++ [rs]) w') as (executed & Hpre & Hc & Hh).
      exists (stmt :: executed). split; [by apply prefix_cons|].
      rewrite Hc, Hh, Hcalls, Hhandle. cbn. by rewrite <-app_assoc.
    + exists [stmt]. split; [apply (prefix_cons stmt [] stmts), prefix_nil|].
      cbn. by rewrite Hcalls, Hhandle.
Qed.

Lemma batch_on_unfold conn stmts :
  batch_on conn stmts =
    match conn_rollback conn with
    | (c, Return _) => for_stmts stmts [] {| handle := c; calls := [CallRollback] |}
    | (c, Raise e) => ({| handle := c; calls := [CallRollback] |}, Raise e)
    end.
Proof.
  unfold batch_on, _batch, mbind, M_bind, rollback. cbn.
  by destruct (conn_rollback conn) as [c [[]|e]].
Qed.

(** X1.  When the rollback succeeds and every statement executes, has a
    description and yields its rows, the batch returns one result set per
    statement, in the order of the statements, each built from the
    description and the rows of its statement, after the rollback and one
    execution of each statement. *)
Lemma batch_on_produces conn c0 stmts c1 rss :
  conn_rollback conn = (c0, Return ()) →
  Produces c0 stmts c1 rss →
  batch_on conn stmts =
    ({| handle := c1; calls := CallRollback :: (CallExecute <$> stmts) |}, Return rss)
  ∧ length rss = length stmts.
Proof.
  intros Hrb Hp. split; [|by eapply Produces_length].
  rewrite batch_on_unfold, Hrb.
  by rewrite (for_stmts_produces stmts [] {| handle := c0; calls := [CallRollback] |} c1 rss Hp).
Qed.

(** The calls already in the log play no part in what a step does: it adds
    its own calls behind them. *)
Lemma rollback_frame c l :
  rollback {| handle := c; calls := l |} =
    (prepend l (rollback {| handle := c; calls := [] |}).1,
     (rollback {| handle := c; calls := [] |}).2).
Proof. unfold rollback, prepend. cbn. by destruct (conn_rollback c). Qed.

Lemma run_stmt_frame stmt c l :
  run_stmt stmt {| handle := c; calls := l |} =
    (prepend l (run_stmt stmt {| handle := c; calls := [] |}).1,
     (run_stmt stmt {| handle := c; calls := [] |}).2).
Proof.
  unfold run_stmt, mbind, M_bind, try_except, execute, column_names,
    lift_outcome, prepend. cbn.
  destruct (conn_execute _ _ _) as [c1 [cursor|e]]; cbn.
  - destruct (description cursor); cbn; [|done].
    by destruct (fetchall cursor).
  - by destruct e.
Qed.

Lemma for_stmts_frame stmts : ∀ acc c l,
  for_stmts stmts acc {| handle := c; calls := l |} =
    (prepend l (for_stmts stmts acc {| handle := c; calls := [] |}).1,
     (for_stmts stmts acc {| handle := c; calls := [] |}).2).
Proof.
  induction stmts as [|stmt stmts IH]; intros acc c l.
  - cbn. unfold prepend. cbn. by rewrite app_nil_r.
  - rewrite !for_stmts_cons, (run_stmt_frame stmt c l).
    destruct (run_stmt stmt {| handle := c; calls := [] |}) as [[c1 l1] [rs|e]];
      cbn [fst snd]; [|done].
    unfold prepend at 1. cbn [handle calls].
    rewrite (IH _ c1 (l ++ l1)), (IH _ c1 l1).
    unfold prepend. cbn. by rewrite app_assoc.
Qed.

End ExecutorFacts.

(** * The executor: properties of a batch *)

Section BatchProperties.
Context `{Sqlite3}.

(** C1 (the code departs from the claim).  A statement that executes
    successfully but produces no columns has a cursor whose [description]
    is [None]; [_batch] then raises [TypeError] while it collects the
    column names, and returns no result set for a batch in which every
    statement executed successfully. *)
Theorem batch_raises_without_description conn c0 c1 stmt cursor :
  conn_rollback conn = (c0, Return ()) →
  conn_execute c0 (sql stmt) (params stmt) = (c1, Return cursor) →
  description cursor = None →
  batch_on conn [stmt] =
    ({| handle := c1; calls := [CallRollback; CallExecute stmt] |},
     Raise (TypeError "'NoneType' object is not iterable")).
Proof.
  intros Hrb Hexec Hdescr.
  rewrite batch_on_unfold, Hrb, for_stmts_cons.
  by rewrite (run_stmt_no_description {| handle := c0; calls := [CallRollback] |}
                stmt c1 cursor Hexec Hdescr).
Qed.

(** C2 (amended).  When the statements before [stmt] have executed
    successfully and the execution of [stmt] raises a
    [sqlite3.DatabaseError] with the message [msg],
    the batch makes no call after that execution (the statements of [post]
    are never executed) and raises [ClientResponseError(msg)]; the outcome
    is the error alone, it carries no result set. *)
Theorem batch_stops_at_first_failure conn c0 pre c1 rss stmt c2 msg post :
  conn_rollback conn = (c0, Return ()) →
  Produces c0 pre c1 rss →
  conn_execute c1 (sql stmt) (params stmt) = (c2, Raise (DatabaseError msg)) →
  batch_on conn (pre ++ stmt :: post) =
    ({| handle := c2; calls := CallRollback :: (CallExecute <$> pre ++ [stmt]) |},
     Raise (ClientResponseError msg)).
Proof.
  intros Hrb Hp Hexec.
  rewrite batch_on_unfold, Hrb, for_stmts_app.
  rewrite (for_stmts_produces pre [] {| handle := c0; calls := [CallRollback] |}
             c1 rss Hp), for_stmts_cons.
  rewrite (run_stmt_database_error
             {| handle := c1; calls := [CallRollback] ++ (CallExecute <$> pre) |}
             stmt c2 msg Hexec).
  unfold after_execute. cbn. by rewrite fmap_app.
Qed.

(** C5 (the code departs from the claim).  When the leading rollback
    raises, [_batch] makes no further call on the handle and the exception
    reaches the caller as the engine raised it: the rollback stands outside
    the [try] block, so the error that a failing [execute] would be turned
    into a response error for is not turned into one here. *)
Theorem batch_rollback_failure_propagates conn c e stmts :
  conn_rollback conn = (c, Raise e) →
  batch_on conn stmts = ({| handle := c; calls := [CallRollback] |}, Raise e).
Proof. intros Hrb. by rewrite batch_on_unfold, Hrb. Qed.

(** C6.  The first call a batch makes on the handle is the rollback, made
    on the handle as the batch finds it, whatever the statements are and
    whatever state the handle is in.  The calls after it are executions of
    a leading part of the statements, and these run one after the other
    from the state of the handle that the rollback left: the rollback is
    made once, before any statement runs, also when there is no
    statement. *)
Theorem batch_rollback_first conn stmts :
  ∃ executed, executed `prefix_of` stmts ∧
    calls (batch_on conn stmts).1 = CallRollback :: (CallExecute <$> executed) ∧
    handle (batch_on conn stmts).1 =
      handle_after (conn_rollback conn).1 executed.
Proof.
  rewrite batch_on_unfold.
  destruct (conn_rollback conn) as [c [[]|e]].
  - destruct (for_stmts_trace stmts [] {| handle := c; calls := [CallRollback] |})
      as (executed & Hpre & Hcalls & Hhandle).
    by exists executed.
  - exists []. split; [apply prefix_nil|done].
Qed.

(** C10.  On a handle whose rollback succeeds, a batch with no statement
    makes the rollback, nothing else, and returns the empty list. *)
Theorem batch_empty conn c :
  conn_rollback conn = (c, Return ()) →
  batch_on conn [] = ({| handle := c; calls := [CallRollback] |}, Return []).
Proof. intros Hrb. by rewrite batch_on_unfold, Hrb. Qed.

End BatchProperties.

Lemma batch_raises_without_description_witness :
  batch_on empty_t [stmt "INSERT INTO t VALUES (1)"] =
    ({| handle := {| closed := false; t_rows := [[VInteger 1]] |};
        calls := [CallRollback; CallExecute (stmt "INSERT INTO t VALUES (1)")] |},
     Raise (TypeError "'NoneType' object is not iterable")).
Proof.
  apply (batch_raises_without_description (H := engine) empty_t empty_t _ _
           {| description := None; fetchall := Return [] |});
    reflexivity.
Defined.

Lemma batch_stops_at_first_failure_witness :
  batch_on empty_t
    ([stmt "SELECT * FROM t"] ++ stmt "SELECT * FROM u" ::
       [stmt "INSERT INTO t VALUES (1)"]) =
    ({| handle := empty_t;
        calls := CallRollback ::
          (CallExecute <$> [stmt "SELECT * FROM t"] ++ [stmt "SELECT * FROM u"]) |},
     Raise (ClientResponseError "near SELECT * FROM u: syntax error")).
Proof.
  apply (batch_stops_at_first_failure (H := engine) empty_t empty_t _ empty_t
           [result_set [{| descr_name := "id" |}] []]).
  - reflexivity.
  - eapply Produces_cons; [reflexivity..|apply Produces_nil].
  - reflexivity.
Defined.

Lemma batch_rollback_failure_propagates_witness :
  batch_on closed_db [stmt "SELECT * FROM t"] =
    ({| handle := closed_db; calls := [CallRollback] |}, Raise closed_error).
Proof. apply (batch_rollback_failure_propagates (H := engine)). reflexivity. Defined.

Lemma batch_empty_witness :
  batch_on empty_t [] = ({| handle := empty_t; calls := [CallRollback] |}, Return []).
Proof. apply (batch_empty (H := engine)). reflexivity. Defined.

(** C5 (the claim fails on the code).  On a closed handle the rollback
    raises a [sqlite3.DatabaseError]; the batch raises that error, not a
    [ClientResponseError]. *)
Lemma rollback_failure_is_not_response_error :
  ¬ rollback_failure_is_response_error.
Proof.
  intros Hclaim.
  specialize (Hclaim engine closed_db closed_db []
                "Cannot operate on a closed database." eq_refl).
  vm_compute in Hclaim. discriminate Hclaim.
Qed.

(** C2 (as stated, refuted).  [SELECT ?] with [2 ** 63] bound to it fails
    with [OverflowError], which the [except] clause does not match: the
    batch raises that exception, not a [ClientResponseError]. *)
Lemma failing_statement_is_not_response_error :
  ¬ failing_statement_is_response_error.
Proof.
  intros Hclaim.
  assert (@conn_execute Binding.binding empty_t (sql Binding.select_big)
            (params Binding.select_big) = (empty_t, Raise Binding.int_too_large))
    as Hexec by (vm_compute; reflexivity).
  specialize (Hclaim Binding.binding empty_t empty_t empty_t empty_t [] [] []
                Binding.select_big Binding.int_too_large eq_refl
                (@Produces_nil Binding.binding empty_t) Hexec).
  assert ((@batch_on Binding.binding empty_t ([] ++ Binding.select_big :: [])).2 =
            Raise Binding.int_too_large) as Hraw by (vm_compute; reflexivity).
  rewrite Hclaim in Hraw. discriminate Hraw.
Qed.

(** C4 (the code departs from the claim).  On the empty table, the batch
    with the single [INSERT] stores the row but raises [TypeError] instead
    of returning one empty result set; the batch with the [SELECT] that
    follows returns one result set with the column [id] and the row [1]. *)
Theorem scenario_insert_then_select :
  let first := batch_on empty_t [stmt "INSERT INTO t VALUES (1)"] in
  let second := batch_on (handle first.1) [stmt "SELECT * FROM t"] in
  first.2 = Raise (TypeError "'NoneType' object is not iterable") ∧
  t_rows (handle first.1) = [[VInteger 1]] ∧
  ∃ rs, second.2 = Return [rs] ∧ columns rs = ["id"] ∧
        values <$> rows rs = [[VInteger 1]].
Proof.
  cbv zeta. split; [reflexivity|]. split; [reflexivity|].
  eexists. split; [reflexivity|]. split; reflexivity.
Qed.

(** * The name-to-index lookup *)

Lemma enumerate_snoc {A} (l : list A) (x : A) :
  enumerate (l ++ [x]) = enumerate l ++ [(length l, x)].
Proof.
  unfold enumerate. rewrite imap_app. cbn. by rewrite Nat.add_0_r.
Qed.

Lemma dict_of_columns_snoc (cols : list string) (name : string) :
  dict_of_columns (cols ++ [name]) = <[name := length cols]> (dict_of_columns cols).
Proof.
  unfold dict_of_columns. by rewrite enumerate_snoc, foldl_app.
Qed.

(** The lookup maps a name to the last position that bears it. *)
Lemma dict_of_columns_lookup (cols : list string) (name : string) (i : nat) :
  dict_of_columns cols !! name = Some i ↔
  cols !! i = Some name ∧ ∀ j, i < j → cols !! j ≠ Some name.
Proof.
  revert i. induction cols as [|x cols IH] using rev_ind; intros i.
  - split; [done|]. by intros [? _].
  - rewrite dict_of_columns_snoc.
    destruct (decide (x = name)) as [->|Hne].
    + rewrite lookup_insert_eq. split.
      * intros [= <-]. split.
        -- by rewrite lookup_app_r, Nat.sub_diag.
        -- intros j Hj. rewrite lookup_ge_None_2; [done|].
           rewrite length_app. cbn. lia.
      * intros [Hi Hlast]. f_equal.
        destruct (decide (i < length cols)) as [Hlt|Hge].
        -- exfalso. apply (Hlast (length cols) Hlt).
           by rewrite lookup_app_r, Nat.sub_diag.
        -- apply lookup_lt_Some in Hi. rewrite length_app in Hi. cbn in Hi. lia.
    + rewrite lookup_insert_ne by done. rewrite IH. split.
      * intros [Hi Hlast]. split.
        -- by apply lookup_app_l_Some.
        -- intros j Hj Hcontra. apply lookup_snoc_Some in Hcontra as [[_ ?]|[_ ?]].
           ++ by eapply Hlast.
           ++ congruence.
      * intros [Hi Hlast].
        apply lookup_snoc_Some in Hi as [[Hlen Hi]|[_ ?]]; [|congruence].
        split; [done|].
        intros j Hj Hcontra. apply (Hlast j Hj). by apply lookup_app_l_Some.
Qed.

Lemma result_set_row descrs fetched row :
  row ∈ rows (result_set descrs fetched) →
  column_idxs row = dict_of_columns (columns (result_set descrs fetched)).
Proof.
  unfold result_set. cbn. intros Hrow.
  apply list_elem_of_fmap in Hrow as (vs & -> & _). done.
Qed.

Section Lookup.
Context `{Sqlite3}.

(** The result sets of a batch are all built by the loop body. *)
Lemma for_stmts_result_sets stmts acc w w' rss :
  for_stmts stmts acc w = (w', Return rss) →
  Forall (λ rs, ∃ descrs fetched, rs = result_set descrs fetched) acc →
  Forall (λ rs, ∃ descrs fetched, rs = result_set descrs fetched) rss.
Proof.
  revert acc w. induction stmts as [|stmt stmts IH]; intros acc w.
  - by intros [= _ <-].
  - rewrite for_stmts_cons.
    destruct (run_stmt stmt w) as [w1 [rs|e]] eqn:Hrun; [|done].
    intros Hfor Hacc. apply (IH _ _ Hfor).
    apply Forall_app. split; [done|].
    apply Forall_singleton. by eapply run_stmt_result_set.
Qed.

Lemma batch_on_result_sets conn stmts w rss rs :
  batch_on conn stmts = (w, Return rss) → rs ∈ rss →
  ∃ descrs fetched, rs = result_set descrs fetched.
Proof.
  rewrite batch_on_unfold.
  destruct (conn_rollback conn) as [c [[]|e]]; [|done].
  intros Hfor Hrs.
  apply for_stmts_result_sets in Hfor; [|by apply Forall_nil].
  by apply (proj1 (Forall_forall _ _) Hfor).
Qed.

(** C9.  In every row of the result set of a statement, the lookup maps a
    column name to the last position that bears it in the column sequence,
    and the value found under the name is the value at that position. *)
Theorem name_lookup_last_position w stmt w' rs row name i :
  run_stmt stmt w = (w', Return rs) →
  row ∈ rows rs →
  columns rs !! i = Some name →
  (∀ j, i < j → columns rs !! j ≠ Some name) →
  column_idxs row !! name = Some i ∧ Row_by_name row name = values row !! i.
Proof.
  intros Hrun Hrow Hi Hlast.
  apply run_stmt_result_set in Hrun as (descrs & fetched & ->).
  assert (column_idxs row !! name = Some i) as Hidx.
  { rewrite (result_set_row _ _ _ Hrow). by apply dict_of_columns_lookup. }
  split; [done|]. unfold Row_by_name. by rewrite Hidx.
Qed.

(** C7 (amended).  In every row of a result set that a batch returns, the
    value under a column name is the value at the last position that bears
    the name in the column sequence: at its only position when the name
    occurs once. *)
Theorem name_lookup_is_index_lookup_at_last conn stmts w rss rs row i name :
  batch_on conn stmts = (w, Return rss) →
  rs ∈ rss → row ∈ rows rs →
  columns rs !! i = Some name →
  (∀ j, i < j → columns rs !! j ≠ Some name) →
  Row_by_name row name = Row_by_index row i.
Proof.
  intros Hbatch Hrs Hrow Hi Hlast.
  destruct (batch_on_result_sets _ _ _ _ _ Hbatch Hrs) as (descrs & fetched & ->).
  unfold Row_by_name, Row_by_index.
  rewrite (result_set_row _ _ _ Hrow).
  by rewrite (proj2 (dict_of_columns_lookup _ name i) (conj Hi Hlast)).
Qed.

End Lookup.

Lemma name_lookup_last_position_witness :
  column_idxs row_1_2 !! "a" = Some 1 ∧
  Row_by_name row_1_2 "a" = values row_1_2 !! 1.
Proof.
  apply (name_lookup_last_position (H := engine)
           (@Build_World engine empty_t []) (stmt "SELECT 1 AS a, 2 AS a")
           (@Build_World engine empty_t [CallExecute (stmt "SELECT 1 AS a, 2 AS a")])
           {| columns := ["a"; "a"]; rows := [row_1_2] |}).
  - reflexivity.
  - apply list_elem_of_here.
  - reflexivity.
  - intros [|[|j]] Hj; [lia..|done].
Defined.

Lemma name_lookup_is_index_lookup_at_last_witness :
  Row_by_name row_1 "id" = Row_by_index row_1 0.
Proof.
  apply (name_lookup_is_index_lookup_at_last (H := engine)
           {| closed := false; t_rows := [[VInteger 1]] |} [stmt "SELECT * FROM t"]
           (@Build_World engine {| closed := false; t_rows := [[VInteger 1]] |}
              [CallRollback; CallExecute (stmt "SELECT * FROM t")])
           [{| columns := ["id"]; rows := [row_1] |}]
           {| columns := ["id"]; rows := [row_1] |}).
  - reflexivity.
  - apply list_elem_of_here.
  - apply list_elem_of_here.
  - reflexivity.
  - intros [|j] Hj; [lia|done].
Defined.

(** C7 (as stated, refuted).  [SELECT 1 AS a, 2 AS a] has the column
    sequence [a, a] and the row [(1, 2)]: the name at position 0 is [a], the
    value at position 0 is [1], and the value under the name [a] is [2]. *)
Lemma name_lookup_differs_on_duplicate : ¬ name_lookup_is_index_lookup.
Proof.
  intros Hclaim.
  specialize (Hclaim engine empty_t [stmt "SELECT 1 AS a, 2 AS a"]
    (@Build_World engine empty_t
       [CallRollback; CallExecute (stmt "SELECT 1 AS a, 2 AS a")])
    [{| columns := ["a"; "a"]; rows := [row_1_2] |}]
    {| columns := ["a"; "a"]; rows := [row_1_2] |}
    row_1_2 0 "a" eq_refl).
  assert (Row_by_name row_1_2 "a" = Row_by_index row_1_2 0) as Heq.
  { apply Hclaim; [apply list_elem_of_here..|reflexivity]. }
  vm_compute in Heq. discriminate Heq.
Qed.

(** * The adapter: the steps of a worker *)

Section WorkerFacts.
Context `{Sqlite3}.

Lemma resume_holds t w w' t' :
  resume t w = Some (w', t') → holds_lock t = true ∧ holds_lock t' = true.
Proof.
  destruct t as [| stmts | [|stmt stmts] rss | |]; cbn; try done.
  - destruct (rollback w) as [w1 [[]|e]]; by intros [= _ <-].
  - by intros [= _ <-].
  - destruct (run_stmt stmt w) as [w1 [rs|e]]; by intros [= _ <-].
Qed.

Lemma resume_remaining t w w' t' :
  resume t w = Some (w', t') → remaining t' < remaining t.
Proof.
  destruct t as [| stmts | [|stmt stmts] rss | |]; cbn; try done.
  - destruct (rollback w) as [w1 [[]|e]]; intros [= _ <-]; cbn; lia.
  - intros [= _ <-]. cbn. lia.
  - destruct (run_stmt stmt w) as [w1 [rs|e]]; intros [= _ <-]; cbn; lia.
Qed.

Lemma resume_enabled t w :
  holds_lock t = true → (∀ o, t ≠ Finished o) → is_Some (resume t w).
Proof.
  destruct t as [| stmts | [|stmt stmts] rss | o |]; cbn; try done.
  intros _ Hne. by destruct (Hne o).
Qed.

End WorkerFacts.

(** * The adapter: calls on the handle, task by task *)

Lemma fmap_fst_pair {A} (i : nat) (l : list A) :
  (pair i <$> l).*1 = replicate (length l) i.
Proof. induction l as [|x l IH]; cbn; [done|]. by rewrite IH. Qed.

Lemma serial_app_own (ids : list nat) (i k : nat) :
  serial ids → trailing ids i → serial (ids ++ replicate k i).
Proof.
  intros Hserial Htrail p q r a b Hpq Hqr Hp Hq Hr.
  apply lookup_app_Some in Hp, Hq, Hr.
  destruct Hr as [Hr|[Hlen Hr]].
  - pose proof (lookup_lt_Some _ _ _ Hr) as Hlt.
    destruct Hp as [Hp|[? _]]; [|lia].
    destruct Hq as [Hq|[? _]]; [|lia].
    by apply (Hserial p q r).
  - apply lookup_replicate in Hr as [-> _].
    destruct Hq as [Hq|[_ Hq]].
    + pose proof (lookup_lt_Some _ _ _ Hq) as Hlt.
      destruct Hp as [Hp|[? _]]; [|lia].
      symmetry. by apply (Htrail p q).
    + by apply lookup_replicate in Hq as [-> _].
Qed.



Lemma trailing_app_own (ids : list nat) (i k : nat) :
  trailing ids i → trailing (ids ++ replicate k i) i.
Proof.
  intros Htrail p q a Hpq Hp Hq.
  apply lookup_app_Some in Hp, Hq.
  destruct Hq as [Hq|[_ Hq]].
  - pose proof (lookup_lt_Some _ _ _ Hq) as Hlt.
    destruct Hp as [Hp|[? _]]; [|lia].
    by apply (Htrail p q).
  - by apply lookup_replicate in Hq as [-> _].
Qed.

Lemma trailing_fresh (ids : list nat) (i : nat) : i ∉ ids → trailing ids i.
Proof.
  intros Hfresh p q a _ Hp _. destruct Hfresh.
  apply list_elem_of_lookup. by exists p.
Qed.

Section AdapterFacts.
Context `{Sqlite3}.

Lemma init_inv conn : driver_inv (init conn).
Proof.
  split; cbn; try done.
  - intros i Hi. by apply elem_of_nil in Hi.
Qed.

Lemma submit_inv stmts d d' :
  driver_inv d → driver_step (Submit stmts) d = Some d' → driver_inv d'.
Proof.
  intros [Hlocked Hfree Huniq Hserial Htrail Hstart] [= <-]. split; cbn.
  - intros Hl. destruct (Hlocked Hl) as (i & t & Hi & Ht).
    exists i, t. split; [by apply lookup_app_l_Some|done].
  - intros Hl i t Hi.
    apply lookup_snoc_Some in Hi as [[_ Hi]|[_ <-]]; [by eapply Hfree|done].
  - intros i j ti tj Hi Hj Hti Htj.
    apply lookup_snoc_Some in Hi as [[_ Hi]|[_ <-]]; [|done].
    apply lookup_snoc_Some in Hj as [[_ Hj]|[_ <-]]; [|done].
    by eapply Huniq.
  - done.
  - intros i t Hi Ht.
    apply lookup_snoc_Some in Hi as [[_ Hi]|[_ <-]]; [by eapply Htrail|done].
  - intros i Hi. destruct (Hstart i Hi) as (t & Hti & Hst).
    exists t. split; [by apply lookup_app_l_Some|done].
Qed.

Lemma acquire_inv i d d' :
  driver_inv d → driver_step (Acquire i) d = Some d' → driver_inv d'.
Proof.
  intros [Hlocked Hfree Huniq Hserial Htrail Hstart] Hstep. cbn in Hstep.
  destruct (tasks d !! i) as [[stmts| | | |]|] eqn:Hi; try done.
  destruct (_conn_lock d) eqn:Hl; [done|]. injection Hstep as <-.
  pose proof (lookup_lt_Some _ _ _ Hi) as Hlt.
  assert (i ∉ (events d).*1) as Hfresh.
  { intros Hin. destruct (Hstart i Hin) as (t & Ht & Hst). by simplify_eq. }
  assert (∀ j t, <[i:=Dispatched stmts]> (tasks d) !! j = Some t →
                 holds_lock t = true → j = i) as Honly.
  { intros j t Hj Ht. destruct (decide (j = i)) as [|Hne]; [done|].
    rewrite list_lookup_insert_ne in Hj by done.
    rewrite (Hfree eq_refl j t Hj) in Ht. done. }
  split; cbn.
  - intros _. exists i, (Dispatched stmts).
    split; [by apply list_lookup_insert_eq|done].
  - done.
  - intros j k tj tk Hj Hk Htj Htk.
    by rewrite (Honly j tj Hj Htj), (Honly k tk Hk Htk).
  - done.
  - intros j t Hj Ht. rewrite (Honly j t Hj Ht). by apply trailing_fresh.
  - intros j Hj. destruct (Hstart j Hj) as (t & Htj & Hst).
    exists t. split; [|done].
    rewrite list_lookup_insert_ne; [done|]. intros ->. by simplify_eq.
Qed.

Lemma work_inv i d d' :
  driver_inv d → driver_step (Work i) d = Some d' → driver_inv d'.
Proof.
  intros [Hlocked Hfree Huniq Hserial Htrail Hstart] Hstep. cbn in Hstep.
  destruct (tasks d !! i) as [t|] eqn:Hi; [|done]. cbn in Hstep.
  destruct (resume t _) as [[w t']|] eqn:Hres; [|done]. cbn in Hstep.
  injection Hstep as <-.
  destruct (resume_holds _ _ _ _ Hres) as [Ht Ht'].
  pose proof (lookup_lt_Some _ _ _ Hi) as Hlt.
  assert (∀ j tj, <[i:=t']> (tasks d) !! j = Some tj →
                  holds_lock tj = true → j = i) as Honly.
  { intros j tj Hj Htj. destruct (decide (j = i)) as [|Hne]; [done|].
    rewrite list_lookup_insert_ne in Hj by done.
    by apply (Huniq j i tj t). }
  split; cbn.
  - intros _. exists i, t'. split; [by apply list_lookup_insert_eq|done].
  - intros Hl. destruct (_conn_lock d) eqn:Hl'; [done|].
    by rewrite (Hfree eq_refl i t Hi) in Ht.
  - intros j k tj tk Hj Hk Htj Htk.
    by rewrite (Honly j tj Hj Htj), (Honly k tk Hk Htk).
  - rewrite fmap_app, fmap_fst_pair. apply serial_app_own; [done|].
    by apply (Htrail i t).
  - intros j tj Hj Htj. rewrite (Honly j tj Hj Htj).
    rewrite fmap_app, fmap_fst_pair. apply trailing_app_own.
    by apply (Htrail i t).
  - intros j Hj. rewrite fmap_app, fmap_fst_pair in Hj.
    apply elem_of_app in Hj as [Hj|Hj].
    + destruct (Hstart j Hj) as (tj & Htj & Hst).
      destruct (decide (j = i)) as [->|Hne].
      * exists t'. split; [by apply list_lookup_insert_eq|].
        by destruct t'.
      * exists tj. by rewrite list_lookup_insert_ne.
    + apply elem_of_replicate in Hj as [-> _].
      exists t'. split; [by apply list_lookup_insert_eq|]. by destruct t'.
Qed.

Lemma release_inv i d d' :
  driver_inv d → driver_step (Release i) d = Some d' → driver_inv d'.
Proof.
  intros [Hlocked Hfree Huniq Hserial Htrail Hstart] Hstep. cbn in Hstep.
  destruct (tasks d !! i) as [[| | |o|]|] eqn:Hi; try done.
  injection Hstep as <-.
  pose proof (lookup_lt_Some _ _ _ Hi) as Hlt.
  assert (∀ j tj, <[i:=Completed o]> (tasks d) !! j = Some tj →
                  holds_lock tj = false) as Hnone.
  { intros j tj Hj. destruct (decide (j = i)) as [->|Hne].
    - rewrite list_lookup_insert_eq in Hj by done. by injection Hj as <-.
    - rewrite list_lookup_insert_ne in Hj by done.
      destruct (holds_lock tj) eqn:Htj; [|done].
      destruct Hne. by apply (Huniq j i tj (Finished o)). }
  split; cbn.
  - done.
  - intros _. apply Hnone.
  - intros j k tj tk Hj Hk Htj Htk. by rewrite (Hnone j tj Hj) in Htj.
  - done.
  - intros j tj Hj Htj. by rewrite (Hnone j tj Hj) in Htj.
  - intros j Hj. destruct (Hstart j Hj) as (tj & Htj & Hst).
    destruct (decide (j = i)) as [->|Hne].
    + exists (Completed o). split; [by apply list_lookup_insert_eq|done].
    + exists tj. by rewrite list_lookup_insert_ne.
Qed.

Lemma driver_step_inv a d d' :
  driver_inv d → driver_step a d = Some d' → driver_inv d'.
Proof.
  destruct a; [apply submit_inv|apply acquire_inv|apply work_inv|apply release_inv].
Qed.

Lemma run_inv schedule d d' :
  driver_inv d → run schedule d = Some d' → driver_inv d'.
Proof.
  revert d. induction schedule as [|a schedule IH]; intros d Hinv Hrun.
  - by injection Hrun as <-.
  - cbn in Hrun. destruct (driver_step a d) as [d1|] eqn:Hstep; [|done].
    cbn in Hrun. by eapply IH, Hrun; eapply driver_step_inv.
Qed.

Lemma run_app s1 s2 d : run (s1 ++ s2) d = run s1 d ≫= run s2.
Proof.
  revert d. induction s1 as [|a s1 IH]; intros d; [done|].
  cbn. destruct (driver_step a d) as [d1|]; [apply IH|done].
Qed.

End AdapterFacts.

(** * The adapter: mutual exclusion and release of the lock *)

Section AdapterProperties.
Context `{Sqlite3}.

Lemma work_step i d t w t' :
  tasks d !! i = Some t →
  resume t {| handle := _conn d; calls := [] |} = Some (w, t') →
  driver_step (Work i) d =
    Some {| _conn := handle w; _conn_lock := _conn_lock d;
            tasks := <[i := t']> (tasks d);
            events := events d ++ (pair i <$> calls w) |}.
Proof. intros Hi Hres. cbn. rewrite Hi. cbn. by rewrite Hres. Qed.


(** A call that holds the lock gets to the end of [_batch] by the steps
    of its own worker, however [_batch] ends. *)
Lemma work_to_finish n : ∀ d i t,
  remaining t ≤ n → tasks d !! i = Some t → holds_lock t = true →
  ∃ m o d', run (replicate m (Work i)) d = Some d' ∧
            tasks d' !! i = Some (Finished o).
Proof.
  induction n as [|n IH]; intros d i t Hrem Hi Ht.
  - destruct t as [| stmts | stmts rss | o |]; cbn in Hrem, Ht; try done; try lia.
    by exists 0, o, d.
  - assert ((∃ o, t = Finished o) ∨ ∀ o, t ≠ Finished o) as [[o ->]|Hnot].
    { destruct t; try (by right). left. by eexists. }
    { by exists 0, o, d. }
    destruct (resume_enabled t {| handle := _conn d; calls := [] |} Ht Hnot)
      as [[w t'] Hres].
    pose proof (resume_remaining _ _ _ _ Hres) as Hless.
    destruct (resume_holds _ _ _ _ Hres) as [_ Ht'].
    pose proof (lookup_lt_Some _ _ _ Hi) as Hlt.
    destruct (IH _ i t' ltac:(lia)
                (list_lookup_insert_eq (tasks d) i t' Hlt : tasks
                   {| _conn := handle w; _conn_lock := _conn_lock d;
                      tasks := <[i := t']> (tasks d);
                      events := events d ++ (pair i <$> calls w) |} !! i = Some t')
                Ht')
      as (m & o & d' & Hrun & Hfin).
    exists (S m), o, d'. split; [|done].
    cbn [replicate run]. by rewrite (work_step _ _ _ _ _ Hi Hres).
Qed.

(** The worker of a call that is in the loop, left to run, takes the call
    to the end of the loop of [_batch]. *)
Lemma work_runs_loop stmts : ∀ rss d i,
  tasks d !! i = Some (InLoop stmts rss) →
  ∃ m, run (replicate m (Work i)) d =
    Some (finished_by d i (for_stmts stmts rss {| handle := _conn d; calls := [] |})).
Proof.
  induction stmts as [|stmt stmts IH]; intros rss d i Hi.
  - exists 1. cbn [replicate run].
    by rewrite (work_step i d _ {| handle := _conn d; calls := [] |}
                  (Finished (Return rss)) Hi eq_refl).
  - rewrite for_stmts_cons.
    destruct (run_stmt stmt {| handle := _conn d; calls := [] |})
      as [[c1 l1] [rs|e]] eqn:Hrun.
    + pose proof (lookup_lt_Some _ _ _ Hi) as Hlt.
      assert (driver_step (Work i) d =
                Some {| _conn := c1; _conn_lock := _conn_lock d;
                        tasks := <[i := InLoop stmts (rss ++ [rs])]> (tasks d);
                        events := events d ++ (pair i <$> l1) |}) as Hstep.
      { apply (work_step i d _ {| handle := c1; calls := l1 |} _ Hi).
        cbn. by rewrite Hrun. }
      set (d1 := {| _conn := c1; _conn_lock := _conn_lock d;
                    tasks := <[i := InLoop stmts (rss ++ [rs])]> (tasks d);
                    events := events d ++ (pair i <$> l1) |}) in *.
      assert (tasks d1 !! i = Some (InLoop stmts (rss ++ [rs]))) as Hi1
        by (by apply list_lookup_insert_eq).
      destruct (IH (rss ++ [rs]) d1 i Hi1) as [m Hm].
      exists (S m). cbn [replicate run]. rewrite Hstep.
      change (run (replicate m (Work i)) d1 = Some
                (finished_by d i
                   (for_stmts stmts (rss ++ [rs]) {| handle := c1; calls := l1 |}))).
      rewrite Hm, (for_stmts_frame stmts (rss ++ [rs]) c1 l1).
      unfold finished_by, prepend. cbn.
      by rewrite list_insert_insert_eq, fmap_app, app_assoc.
    + exists 1. cbn [replicate run].
      rewrite (work_step i d _ {| handle := c1; calls := l1 |} (Finished (Raise e)) Hi);
        [done|].
      cbn. by rewrite Hrun.
Qed.

(** The worker of a call that has taken the lock, left to run, runs
    [_batch] on the handle as it is. *)
Lemma work_runs_batch stmts d i :
  tasks d !! i = Some (Dispatched stmts) →
  ∃ m, run (replicate m (Work i)) d =
    Some (finished_by d i (batch_on (_conn d) stmts)).
Proof.
  intros Hi. unfold batch_on, _batch, mbind, M_bind.
  destruct (rollback {| handle := _conn d; calls := [] |})
    as [[c1 l1] [[]|e]] eqn:Hrb.
  - pose proof (lookup_lt_Some _ _ _ Hi) as Hlt.
    assert (driver_step (Work i) d =
              Some {| _conn := c1; _conn_lock := _conn_lock d;
                      tasks := <[i := InLoop stmts []]> (tasks d);
                      events := events d ++ (pair i <$> l1) |}) as Hstep.
    { apply (work_step i d _ {| handle := c1; calls := l1 |} _ Hi).
      cbn. by rewrite Hrb. }
    set (d1 := {| _conn := c1; _conn_lock := _conn_lock d;
                  tasks := <[i := InLoop stmts []]> (tasks d);
                  events := events d ++ (pair i <$> l1) |}) in *.
    assert (tasks d1 !! i = Some (InLoop stmts [])) as Hi1
      by (by apply list_lookup_insert_eq).
    destruct (work_runs_loop stmts [] d1 i Hi1) as [m Hm].
    exists (S m). cbn [replicate run]. rewrite Hstep.
    change (run (replicate m (Work i)) d1 = Some
              (finished_by d i (for_stmts stmts [] {| handle := c1; calls := l1 |}))).
    rewrite Hm, (for_stmts_frame stmts [] c1 l1).
    unfold finished_by, prepend. cbn.
    by rewrite list_insert_insert_eq, fmap_app, app_assoc.
  - exists 1. cbn [replicate run].
    rewrite (work_step i d _ {| handle := c1; calls := l1 |} (Finished (Raise e)) Hi);
      [done|].
    cbn. by rewrite Hrb.
Qed.

(** X11.  A call of [batch] that runs alone on a new driver takes the lock,
    makes the calls of [_batch] on the handle, and gives the caller the
    outcome of [_batch], whether a list or an exception, with the lock free
    again. *)
Lemma batch_alone conn stmts :
  ∃ m, run (Submit stmts :: batch 0 m) (init conn) =
    Some {| _conn := handle (batch_on conn stmts).1; _conn_lock := false;
            tasks := [Completed (batch_on conn stmts).2];
            events := pair 0 <$> calls (batch_on conn stmts).1 |}.
Proof.
  destruct (work_runs_batch stmts
              {| _conn := conn; _conn_lock := true;
                 tasks := [Dispatched stmts]; events := [] |} 0 eq_refl) as [m Hm].
  exists m.
  change (run (replicate m (Work 0) ++ [Release 0])
            {| _conn := conn; _conn_lock := true;
               tasks := [Dispatched stmts]; events := [] |} = Some
            {| _conn := handle (batch_on conn stmts).1; _conn_lock := false;
               tasks := [Completed (batch_on conn stmts).2];
               events := pair 0 <$> calls (batch_on conn stmts).1 |}).
  by rewrite run_app, Hm.
Qed.

(** C8.  In every state the driver can reach: a call whose [_batch] has
    ended, by returning or by raising, leaves the [async with] block and
    the lock is free after that step; a call that holds the lock reaches
    that step by the steps of its own worker; and when no call is between
    taking and releasing the lock, the lock is free and every waiting call
    can take it. *)
Theorem lock_released_after_batch conn schedule d :
  run schedule (init conn) = Some d →
  (∀ i o, tasks d !! i = Some (Finished o) →
     ∃ d', driver_step (Release i) d = Some d' ∧
           tasks d' !! i = Some (Completed o) ∧ _conn_lock d' = false) ∧
  (∀ i t, tasks d !! i = Some t → holds_lock t = true →
     ∃ m o d', run (replicate m (Work i) ++ [Release i]) d = Some d' ∧
               tasks d' !! i = Some (Completed o) ∧ _conn_lock d' = false) ∧
  ((∀ i t, tasks d !! i = Some t → holds_lock t = false) →
     _conn_lock d = false ∧
     ∀ j stmts, tasks d !! j = Some (Waiting stmts) →
                is_Some (driver_step (Acquire j) d)).
Proof.
  intros Hrun.
  pose proof (run_inv _ _ _ (init_inv conn) Hrun) as Hinv.
  assert (∀ d0 i o, tasks d0 !! i = Some (Finished o) →
     ∃ d', driver_step (Release i) d0 = Some d' ∧
           tasks d' !! i = Some (Completed o) ∧ _conn_lock d' = false) as Hrelease.
  { intros d0 i o Hi. eexists. cbn. rewrite Hi. split; [done|]. cbn.
    split; [|done]. apply list_lookup_insert_eq. by eapply lookup_lt_Some. }
  split; [apply Hrelease|]. split.
  - intros i t Hi Ht.
    destruct (work_to_finish (remaining t) d i t (le_n _) Hi Ht)
      as (m & o & d1 & Hwork & Hfin).
    destruct (Hrelease d1 i o Hfin) as (d' & Hstep & Hdone & Hfree).
    exists m, o, d'. split; [|done].
    rewrite run_app, Hwork.
    change (Some d1 ≫= run [Release i]) with (run [Release i] d1).
    cbn [run]. by rewrite Hstep.
  - intros Hnone.
    assert (_conn_lock d = false) as Hfree.
    { destruct (_conn_lock d) eqn:Hl; [|done].
      destruct (inv_locked d Hinv Hl) as (i & t & Hi & Ht).
      by rewrite (Hnone i t Hi) in Ht. }
    split; [done|].
    intros j stmts Hj. cbn. rewrite Hj, Hfree. by eexists.
Qed.

End AdapterProperties.

Lemma lock_released_after_batch_witness :
  ∃ d, run two_batches (init empty_t) = Some d ∧
    (∀ i o, tasks d !! i = Some (Finished o) →
       ∃ d', driver_step (Release i) d = Some d' ∧
             tasks d' !! i = Some (Completed o) ∧ _conn_lock d' = false) ∧
    (∀ i t, tasks d !! i = Some t → holds_lock t = true →
       ∃ m o d', run (replicate m (Work i) ++ [Release i]) d = Some d' ∧
                 tasks d' !! i = Some (Completed o) ∧ _conn_lock d' = false) ∧
    ((∀ i t, tasks d !! i = Some t → holds_lock t = false) →
       _conn_lock d = false ∧
       ∀ j stmts, tasks d !! j = Some (Waiting stmts) →
                  is_Some (driver_step (Acquire j) d)).
Proof.
  eexists. split; [vm_compute; reflexivity|].
  apply (lock_released_after_batch (H := engine) empty_t two_batches).
  vm_compute. reflexivity.
Defined.

(** * More on the executor: when a batch returns, and how it fails *)

Section BatchMore.
Context `{Sqlite3}.

Lemma run_stmt_return_inv w stmt w' rs :
  run_stmt stmt w = (w', Return rs) →
  ∃ c cursor descrs fetched,
    conn_execute (handle w) (sql stmt) (params stmt) = (c, Return cursor) ∧
    description cursor = Some descrs ∧
    fetchall cursor = Return fetched ∧
    rs = result_set descrs fetched ∧
    w' = after_execute w stmt c.
Proof.
  unfold run_stmt, mbind, M_bind, try_except, execute, column_names, lift_outcome.
  destruct (conn_execute _ _ _) as [c [cursor|e]] eqn:Hexec; cbn.
  - destruct (description cursor) as [descrs|] eqn:Hdescr; cbn; [|done].
    destruct (fetchall cursor) as [fetched|] eqn:Hfetch; [|done].
    intros [= <- <-]. by exists c, cursor, descrs, fetched.
  - by destruct e.
Qed.

Lemma for_stmts_return_inv stmts : ∀ acc w w' rss,
  for_stmts stmts acc w = (w', Return rss) →
  ∃ rss', rss = acc ++ rss' ∧ Produces (handle w) stmts (handle w') rss'.
Proof.
  induction stmts as [|stmt stmts IH]; intros acc w w' rss.
  - intros [= <- <-]. exists []. split; [by rewrite app_nil_r|constructor].
  - rewrite for_stmts_cons.
    destruct (run_stmt stmt w) as [w1 [rs|e]] eqn:Hrun; [|done].
    intros Hfor.
    apply run_stmt_return_inv in Hrun
      as (c & cursor & descrs & fetched & Hexec & Hdescr & Hfetch & -> & ->).
    apply IH in Hfor as (rss' & -> & Hp).
    exists (result_set descrs fetched :: rss'). split.
    + by rewrite <-app_assoc.
    + by eapply Produces_cons.
Qed.

(** X2.  Whenever a batch returns, the rollback succeeded and every
    statement executed in turn, had a description and yielded its rows: the
    list holds one result set per statement, in the order of the
    statements, and the calls on the handle are the rollback and one
    execution of each statement, in that order. *)
Theorem batch_return_inv conn stmts w rss :
  batch_on conn stmts = (w, Return rss) →
  ∃ c0, conn_rollback conn = (c0, Return ()) ∧
        Produces c0 stmts (handle w) rss ∧
        calls w = CallRollback :: (CallExecute <$> stmts) ∧
        length rss = length stmts.
Proof.
  rewrite batch_on_unfold.
  destruct (conn_rollback conn) as [c0 [[]|e]] eqn:Hrb; [|done].
  intros Hfor. exists c0. split; [done|].
  pose proof Hfor as Hinv.
  apply for_stmts_return_inv in Hinv as (rss' & -> & Hp). cbn in Hp |- *.
  split; [done|]. split; [|by eapply Produces_length].
  rewrite (for_stmts_produces stmts [] {| handle := c0; calls := [CallRollback] |}
             (handle w) rss' Hp) in Hfor.
  by injection Hfor as <-.
Qed.

Lemma batch_on_fails_after conn c0 pre c1 rss stmt w e post :
  conn_rollback conn = (c0, Return ()) →
  Produces c0 pre c1 rss →
  run_stmt stmt {| handle := c1; calls := CallRollback :: (CallExecute <$> pre) |} =
    (w, Raise e) →
  batch_on conn (pre ++ stmt :: post) = (w, Raise e).
Proof.
  intros Hrb Hp Hrun.
  rewrite batch_on_unfold, Hrb, for_stmts_app.
  rewrite (for_stmts_produces pre [] {| handle := c0; calls := [CallRollback] |}
             c1 rss Hp), for_stmts_cons.
  cbn [app calls handle]. by rewrite Hrun.
Qed.

(** X3.  Only a [sqlite3.DatabaseError] is turned into a response error:
    when the execution of a statement raises any other exception, the batch
    stops there and the caller gets that exception as it was raised. *)
Theorem batch_other_error_unchanged conn c0 pre c1 rss stmt c2 e post :
  conn_rollback conn = (c0, Return ()) →
  Produces c0 pre c1 rss →
  conn_execute c1 (sql stmt) (params stmt) = (c2, Raise e) →
  (∀ msg, e ≠ DatabaseError msg) →
  batch_on conn (pre ++ stmt :: post) =
    ({| handle := c2; calls := CallRollback :: (CallExecute <$> pre ++ [stmt]) |},
     Raise e).
Proof.
  intros Hrb Hp Hexec Hother.
  apply (batch_on_fails_after conn c0 pre c1 rss); [done..|].
  unfold run_stmt, mbind, M_bind, try_except, execute. cbn.
  rewrite Hexec, fmap_app. cbn.
  destruct e as [msg| | |]; [by destruct (Hother msg)|done..].
Qed.

(** X4.  The rows are fetched outside the [try] block: when [fetchall]
    raises, a [sqlite3.DatabaseError] included, the batch stops there and
    the caller gets that exception as it was raised, not a response error. *)
Theorem batch_fetchall_error_unchanged
    conn c0 pre c1 rss stmt c2 cursor descrs e post :
  conn_rollback conn = (c0, Return ()) →
  Produces c0 pre c1 rss →
  conn_execute c1 (sql stmt) (params stmt) = (c2, Return cursor) →
  description cursor = Some descrs →
  fetchall cursor = Raise e →
  batch_on conn (pre ++ stmt :: post) =
    ({| handle := c2; calls := CallRollback :: (CallExecute <$> pre ++ [stmt]) |},
     Raise e).
Proof.
  intros Hrb Hp Hexec Hdescr Hfetch.
  apply (batch_on_fails_after conn c0 pre c1 rss); [done..|].
  unfold run_stmt, mbind, M_bind, try_except, execute, column_names, lift_outcome.
  cbn. rewrite Hexec, Hdescr. cbn. by rewrite Hfetch, fmap_app.
Qed.

(** X5.  A batch that fails is not changed by the statements that come
    after the failure: with more statements behind it, it makes the same
    calls, leaves the handle in the same state and raises the same
    exception. *)
Theorem batch_failure_ignores_rest conn pre post w e :
  batch_on conn pre = (w, Raise e) →
  batch_on conn (pre ++ post) = (w, Raise e).
Proof.
  rewrite !batch_on_unfold.
  destruct (conn_rollback conn) as [c0 [[]|e0]]; [|done].
  intros Hpre. by rewrite for_stmts_app, Hpre.
Qed.

(** X6.  When a batch returns, the batch of any leading part of its
    statements returns too, and its result sets are the leading result sets
    of the longer batch. *)
Theorem batch_prefix_returns conn pre post w rss :
  batch_on conn (pre ++ post) = (w, Return rss) →
  ∃ w1, batch_on conn pre = (w1, Return (take (length pre) rss)).
Proof.
  rewrite !batch_on_unfold.
  destruct (conn_rollback conn) as [c0 [[]|e0]]; [|done].
  rewrite for_stmts_app.
  destruct (for_stmts pre [] _) as [w1 [rss1|e]] eqn:Hpre; [|done].
  intros Hpost. exists w1. do 2 f_equal.
  apply for_stmts_return_inv in Hpost as (rss2 & -> & _).
  apply for_stmts_return_inv in Hpre as (rss1' & -> & Hp).
  apply Produces_length in Hp. cbn.
  by rewrite <-Hp, take_app_length.
Qed.

End BatchMore.

Lemma batch_on_produces_witness :
  ∃ w rss,
    batch_on empty_t [stmt "SELECT * FROM t"; stmt "SELECT 1 AS a, 2 AS a"] =
      (w, Return rss) ∧ length rss = 2.
Proof.
  eexists _, _.
  apply (batch_on_produces (H := engine) empty_t empty_t
           [stmt "SELECT * FROM t"; stmt "SELECT 1 AS a, 2 AS a"] empty_t);
    [reflexivity|].
  eapply Produces_cons; [reflexivity..|].
  eapply Produces_cons; [reflexivity..|].
  apply Produces_nil.
Defined.

Lemma batch_return_inv_witness :
  ∃ w rss,
    batch_on empty_t [stmt "SELECT * FROM t"; stmt "SELECT 1 AS a, 2 AS a"] =
      (w, Return rss) ∧
    ∃ c0, conn_rollback empty_t = (c0, Return ()) ∧
          Produces c0 [stmt "SELECT * FROM t"; stmt "SELECT 1 AS a, 2 AS a"]
            (handle w) rss ∧
          calls w = CallRollback ::
            (CallExecute <$> [stmt "SELECT * FROM t"; stmt "SELECT 1 AS a, 2 AS a"]) ∧
          length rss = 2.
Proof.
  eexists _, _. split; [vm_compute; reflexivity|].
  apply (batch_return_inv (H := engine)). vm_compute. reflexivity.
Defined.

Lemma batch_other_error_unchanged_witness :
  @batch_on Faults.faulty empty_t
    ([stmt "SELECT * FROM t"] ++ stmt "SELECT * FROM t; SELECT * FROM t" ::
       [stmt "INSERT INTO t VALUES (1)"]) =
    (@Build_World Faults.faulty empty_t
       (CallRollback :: (CallExecute <$> [stmt "SELECT * FROM t"] ++
                           [stmt "SELECT * FROM t; SELECT * FROM t"])),
     Raise Faults.two_statements).
Proof.
  apply (batch_other_error_unchanged (H := Faults.faulty) empty_t empty_t _ empty_t
           [result_set [{| descr_name := "id" |}] []]).
  - reflexivity.
  - eapply (@Produces_cons Faults.faulty); [reflexivity..|apply Produces_nil].
  - reflexivity.
  - intros msg. discriminate.
Defined.

Lemma batch_fetchall_error_unchanged_witness :
  @batch_on Faults.faulty empty_t
    ([stmt "SELECT * FROM t"] ++ stmt "SELECT abs(id) FROM t" ::
       [stmt "INSERT INTO t VALUES (1)"]) =
    (@Build_World Faults.faulty empty_t
       (CallRollback :: (CallExecute <$> [stmt "SELECT * FROM t"] ++
                           [stmt "SELECT abs(id) FROM t"])),
     Raise Faults.overflow).
Proof.
  apply (batch_fetchall_error_unchanged (H := Faults.faulty) empty_t empty_t _ empty_t
           [result_set [{| descr_name := "id" |}] []] _ empty_t
           {| description := Some [{| descr_name := "abs(id)" |}];
              fetchall := Raise Faults.overflow |}
           [{| descr_name := "abs(id)" |}]).
  - reflexivity.
  - eapply (@Produces_cons Faults.faulty); [reflexivity..|apply Produces_nil].
  - reflexivity.
  - reflexivity.
  - reflexivity.
Defined.

Lemma batch_failure_ignores_rest_witness :
  batch_on empty_t ([stmt "SELECT * FROM u"] ++ [stmt "INSERT INTO t VALUES (1)"]) =
    (@Build_World engine empty_t [CallRollback; CallExecute (stmt "SELECT * FROM u")],
     Raise (ClientResponseError "near SELECT * FROM u: syntax error")).
Proof. apply (batch_failure_ignores_rest (H := engine)). reflexivity. Defined.

Lemma batch_prefix_returns_witness :
  ∃ w1, batch_on empty_t [stmt "SELECT * FROM t"] =
    (w1, Return (take 1 [result_set [{| descr_name := "id" |}] [];
                         result_set [{| descr_name := "a" |}; {| descr_name := "a" |}]
                           [[VInteger 1; VInteger 2]]])).
Proof.
  apply (batch_prefix_returns (H := engine) empty_t [stmt "SELECT * FROM t"]
           [stmt "SELECT 1 AS a, 2 AS a"]
           (@Build_World engine empty_t
              [CallRollback; CallExecute (stmt "SELECT * FROM t");
               CallExecute (stmt "SELECT 1 AS a, 2 AS a")])).
  reflexivity.
Defined.

(** * More on the name-to-index lookup *)

(** X7.  The lookup that is built from a column sequence has an entry for
    every name of the sequence and for no other name. *)
Theorem dict_of_columns_dom (cols : list string) :
  dom (dict_of_columns cols) = list_to_set cols.
Proof.
  induction cols as [|x cols IH] using rev_ind; [done|].
  rewrite dict_of_columns_snoc, dom_insert_L, list_to_set_app_L, IH.
  cbn. rewrite union_empty_r_L. apply (comm_L (∪)).
Qed.

Section LookupMore.
Context `{Sqlite3}.

(** X10.  Every row of a result set that a batch returns carries the same
    lookup, the one built from the column sequence of that result set. *)
Theorem rows_share_lookup conn stmts w rss rs row :
  batch_on conn stmts = (w, Return rss) →
  rs ∈ rss → row ∈ rows rs →
  column_idxs row = dict_of_columns (columns rs).
Proof.
  intros Hbatch Hrs Hrow.
  destruct (batch_on_result_sets _ _ _ _ _ Hbatch Hrs) as (descrs & fetched & ->).
  by apply result_set_row.
Qed.

(** X8.  In a row that has as many values as its result set has columns, a
    lookup by name finds a value exactly for the names of the column
    sequence: a name of the sequence never fails, any other name does. *)
Theorem name_lookup_succeeds_iff conn stmts w rss rs row name :
  batch_on conn stmts = (w, Return rss) →
  rs ∈ rss → row ∈ rows rs →
  length (values row) = length (columns rs) →
  is_Some (Row_by_name row name) ↔ name ∈ columns rs.
Proof.
  intros Hbatch Hrs Hrow Hlen.
  destruct (batch_on_result_sets _ _ _ _ _ Hbatch Hrs) as (descrs & fetched & ->).
  unfold Row_by_name. rewrite (result_set_row _ _ _ Hrow).
  destruct (dict_of_columns _ !! name) as [i|] eqn:Hidx; cbn.
  - apply dict_of_columns_lookup in Hidx as [Hi _].
    split; [intros _; by eapply list_elem_of_lookup_2|intros _].
    apply lookup_lt_is_Some. rewrite Hlen. by eapply lookup_lt_Some.
  - split; [by intros [? ?]|]. intros Hin.
    apply not_elem_of_dom in Hidx. rewrite dict_of_columns_dom in Hidx.
    destruct Hidx. by apply elem_of_list_to_set.
Qed.

(** X9.  When the column names of a result set are distinct, a lookup by a
    column name and the lookup by the position of that name give the same
    value, in every row and at every position. *)
Theorem name_lookup_is_index_lookup_distinct conn stmts w rss rs row i name :
  batch_on conn stmts = (w, Return rss) →
  rs ∈ rss → row ∈ rows rs →
  NoDup (columns rs) →
  columns rs !! i = Some name →
  Row_by_name row name = Row_by_index row i.
Proof.
  intros Hbatch Hrs Hrow Hnodup Hi.
  destruct (batch_on_result_sets _ _ _ _ _ Hbatch Hrs) as (descrs & fetched & ->).
  unfold Row_by_name, Row_by_index. rewrite (result_set_row _ _ _ Hrow).
  rewrite (proj2 (dict_of_columns_lookup _ name i)); [done|].
  split; [done|]. intros j Hj Hname.
  pose proof (NoDup_lookup _ _ _ _ Hnodup Hi Hname). lia.
Qed.

End LookupMore.

Lemma rows_share_lookup_witness :
  column_idxs row_1_2 = dict_of_columns ["a"; "a"].
Proof.
  apply (rows_share_lookup (H := engine) empty_t [stmt "SELECT 1 AS a, 2 AS a"]
           (@Build_World engine empty_t
              [CallRollback; CallExecute (stmt "SELECT 1 AS a, 2 AS a")])
           [{| columns := ["a"; "a"]; rows := [row_1_2] |}]
           {| columns := ["a"; "a"]; rows := [row_1_2] |}).
  - reflexivity.
  - apply list_elem_of_here.
  - apply list_elem_of_here.
Defined.

Lemma name_lookup_succeeds_iff_witness :
  is_Some (Row_by_name row_1_2 "a") ↔ "a" ∈ ["a"; "a"].
Proof.
  apply (name_lookup_succeeds_iff (H := engine) empty_t
           [stmt "SELECT 1 AS a, 2 AS a"]
           (@Build_World engine empty_t
              [CallRollback; CallExecute (stmt "SELECT 1 AS a, 2 AS a")])
           [{| columns := ["a"; "a"]; rows := [row_1_2] |}]
           {| columns := ["a"; "a"]; rows := [row_1_2] |}).
  - reflexivity.
  - apply list_elem_of_here.
  - apply list_elem_of_here.
  - reflexivity.
Defined.

Lemma name_lookup_is_index_lookup_distinct_witness :
  Row_by_name row_1 "id" = Row_by_index row_1 0.
Proof.
  apply (name_lookup_is_index_lookup_distinct (H := engine)
           {| closed := false; t_rows := [[VInteger 1]] |} [stmt "SELECT * FROM t"]
           (@Build_World engine {| closed := false; t_rows := [[VInteger 1]] |}
              [CallRollback; CallExecute (stmt "SELECT * FROM t")])
           [{| columns := ["id"]; rows := [row_1] |}]
           {| columns := ["id"]; rows := [row_1] |}).
  - reflexivity.
  - apply list_elem_of_here.
  - apply list_elem_of_here.
  - apply NoDup_singleton.
  - reflexivity.
Defined.

(** * More on the adapter: every call of [batch] is atomic *)

Lemma own_calls_app (i : nat) (l1 l2 : list (nat * Call)) :
  own_calls i (l1 ++ l2) = own_calls i l1 ++ own_calls i l2.
Proof. apply omap_app. Qed.

Lemma own_calls_own (i : nat) (l : list Call) : own_calls i (pair i <$> l) = l.
Proof.
  unfold own_calls. induction l as [|x l IH]; [done|].
  cbn. rewrite decide_True by done. by rewrite IH.
Qed.

Lemma own_calls_other (i j : nat) (l : list Call) :
  i ≠ j → own_calls i (pair j <$> l) = [].
Proof.
  intros Hne. unfold own_calls. induction l as [|x l IH]; [done|].
  cbn. by rewrite decide_False.
Qed.

Lemma own_calls_fresh (i : nat) (evs : list (nat * Call)) :
  i ∉ evs.*1 → own_calls i evs = [].
Proof.
  unfold own_calls. induction evs as [|[j x] evs IH]; [done|].
  cbn. intros Hfresh. apply not_elem_of_cons in Hfresh as [Hne Hfresh].
  rewrite decide_False by done. by apply IH.
Qed.

Section AdapterAtomic.
Context `{Sqlite3}.

Lemma prepend_app l1 l2 w : prepend (l1 ++ l2) w = prepend l1 (prepend l2 w).
Proof. unfold prepend. cbn. by rewrite app_assoc. Qed.

Lemma prepend_nil w : prepend [] w = w.
Proof. by destruct w. Qed.

Lemma holds_lock_started t : holds_lock t = true → started t = true.
Proof. by destruct t. Qed.

(** A step of the worker does not change where the worker ends: it only
    moves calls from those still to make to those made. *)
Lemma finish_resume t c w1 t' :
  resume t {| handle := c; calls := [] |} = Some (w1, t') →
  ∃ w' o, finish t' (handle w1) = Some (w', o) ∧
          finish t c = Some (prepend (calls w1) w', o).
Proof.
  destruct t as [| stmts | [|stmt stmts] rss | |]; cbn [resume finish]; try done.
  - unfold batch_on, _batch, mbind, M_bind.
    destruct (rollback {| handle := c; calls := [] |}) as [[c1 l1] [[]|e]];
      cbn [settle]; intros [= <- <-]; cbn [finish handle calls].
    + eexists _, _. split; [by rewrite <-surjective_pairing|].
      by rewrite (for_stmts_frame stmts [] c1 l1).
    + eexists _, _. split; [done|]. unfold prepend. cbn. by rewrite app_nil_r.
  - intros [= <- <-]. by eexists _, _.
  - rewrite for_stmts_cons.
    destruct (run_stmt stmt {| handle := c; calls := [] |}) as [[c1 l1] [rs|e]];
      cbn [settle]; intros [= <- <-]; cbn [finish handle calls].
    + eexists _, _. split; [by rewrite <-surjective_pairing|].
      by rewrite (for_stmts_frame stmts (rss ++ [rs]) c1 l1).
    + eexists _, _. split; [done|]. unfold prepend. cbn. by rewrite app_nil_r.
Qed.

Lemma atomic_keep conn schedule a d d' j t :
  atomic_inv conn schedule d →
  tasks d !! j = Some t → started t = true →
  (∀ target, tracks j t d target → tracks j t d' target) →
  ∃ s1 s2 d1 stmts,
    schedule ++ [a] = s1 ++ Acquire j :: s2 ∧
    run s1 (init conn) = Some d1 ∧
    tasks d1 !! j = Some (Waiting stmts) ∧
    tracks j t d' (batch_on (_conn d1) stmts).
Proof.
  intros Hatomic Hj Hst Hkeep.
  destruct (Hatomic j t Hj Hst) as (s1 & s2 & d1 & stmts & -> & Hrun & Hwait & Htr).
  exists s1, (s2 ++ [a]), d1, stmts.
  split; [by rewrite <-app_assoc|]. split; [done|]. split; [done|].
  by apply Hkeep.
Qed.

Lemma atomic_step conn schedule a d d' :
  driver_inv d →
  run schedule (init conn) = Some d →
  atomic_inv conn schedule d →
  driver_step a d = Some d' →
  atomic_inv conn (schedule ++ [a]) d'.
Proof.
  intros Hinv Hrun Hatomic Hstep i t Hi Hst.
  destruct a as [stmts|i0|i0|i0]; cbn in Hstep.
  - (* Submit *)
    injection Hstep as <-. cbn in Hi.
    apply lookup_snoc_Some in Hi as [[_ Hi]|[_ <-]]; [|done].
    by apply (atomic_keep conn schedule _ d _ i t).
  - (* Acquire *)
    destruct (tasks d !! i0) as [[stmts| | | |]|] eqn:Hi0; try done.
    destruct (_conn_lock d) eqn:Hl; [done|]. injection Hstep as <-. cbn in Hi.
    destruct (decide (i = i0)) as [->|Hne].
    + rewrite list_lookup_insert_eq in Hi by (by eapply lookup_lt_Some).
      injection Hi as <-.
      exists schedule, [], d, stmts. split; [done|]. split; [done|]. split; [done|].
      unfold tracks. cbn [finish _conn events].
      exists (batch_on (_conn d) stmts).1, (batch_on (_conn d) stmts).2.
      split; [by rewrite <-surjective_pairing|].
      rewrite own_calls_fresh, prepend_nil; [by rewrite <-surjective_pairing|].
      intros Hin. destruct (inv_started d Hinv i0 Hin) as (t0 & Ht0 & Hst0).
      by simplify_eq.
    + rewrite list_lookup_insert_ne in Hi by done.
      by apply (atomic_keep conn schedule _ d _ i t).
  - (* Work *)
    destruct (tasks d !! i0) as [t0|] eqn:Hi0; [|done]. cbn in Hstep.
    destruct (resume t0 _) as [[w1 t0']|] eqn:Hres; [|done]. cbn in Hstep.
    injection Hstep as <-. cbn in Hi.
    destruct (resume_holds _ _ _ _ Hres) as [Ht0 Ht0'].
    destruct (decide (i = i0)) as [->|Hne].
    + rewrite list_lookup_insert_eq in Hi by (by eapply lookup_lt_Some).
      injection Hi as <-.
      destruct (Hatomic i0 t0 Hi0 (holds_lock_started _ Ht0))
        as (s1 & s2 & d1 & stmts & -> & Hrun1 & Hwait & Htr).
      exists s1, (s2 ++ [Work i0]), d1, stmts.
      split; [by rewrite <-app_assoc|]. split; [done|]. split; [done|].
      destruct (finish_resume _ _ _ _ Hres) as (w' & o & Hfin' & Hfin).
      assert (∃ w0 o0, finish t0 (_conn d) = Some (w0, o0) ∧
                batch_on (_conn d1) stmts = (prepend (own_calls i0 (events d)) w0, o0))
        as (w0 & o0 & Hfin0 & Htarget) by (by destruct t0).
      rewrite Hfin in Hfin0. injection Hfin0 as <- <-.
      assert (∃ w o1, finish t0' (handle w1) = Some (w, o1) ∧
                batch_on (_conn d1) stmts =
                  (prepend (own_calls i0 (events d ++ (pair i0 <$> calls w1))) w, o1))
        as Hgoal.
      { exists w', o. split; [done|].
        by rewrite own_calls_app, own_calls_own, prepend_app. }
      by destruct t0'.
    + rewrite list_lookup_insert_ne in Hi by done.
      apply (atomic_keep conn schedule _ d _ i t); [done..|].
      destruct (holds_lock t) eqn:Ht.
      { destruct Hne. by apply (inv_unique d Hinv i i0 t t0). }
      destruct t as [| | | |o]; try done.
      intros target [-> Hown]. split; [done|]. cbn [events].
      by rewrite own_calls_app, own_calls_other, app_nil_r.
  - (* Release *)
    destruct (tasks d !! i0) as [[| | |o|]|] eqn:Hi0; try done.
    injection Hstep as <-. cbn in Hi.
    destruct (decide (i = i0)) as [->|Hne].
    + rewrite list_lookup_insert_eq in Hi by (by eapply lookup_lt_Some).
      injection Hi as <-.
      destruct (Hatomic i0 (Finished o) Hi0 eq_refl)
        as (s1 & s2 & d1 & stmts & -> & Hrun1 & Hwait & Htr).
      exists s1, (s2 ++ [Release i0]), d1, stmts.
      split; [by rewrite <-app_assoc|]. split; [done|]. split; [done|].
      destruct Htr as (w & o' & [= <- <-] & ->). cbn.
      split; [done|]. by rewrite app_nil_r.
    + rewrite list_lookup_insert_ne in Hi by done.
      by apply (atomic_keep conn schedule _ d _ i t).
Qed.

Lemma run_atomic conn schedule : ∀ d,
  run schedule (init conn) = Some d → atomic_inv conn schedule d.
Proof.
  induction schedule as [|a schedule IH] using rev_ind; intros d Hrun.
  - injection Hrun as <-. by intros i t Hi.
  - rewrite run_app in Hrun.
    destruct (run schedule (init conn)) as [d0|] eqn:Hrun0; [|done].
    cbn in Hrun. destruct (driver_step a d0) as [d1|] eqn:Hstep; [|done].
    injection Hrun as <-.
    apply (atomic_step conn schedule a d0 d1); [|done|by apply IH|done].
    by apply (run_inv schedule (init conn) d0 (init_inv conn)).
Qed.

(** Among calls that nobody cancels and without [close]: every call of
    [batch] that has come back took the lock at some point of the schedule,
    and what it gives its caller is the outcome of [_batch] run in one
    piece on the handle as it was at that point. *)
Lemma run_call_is_atomic conn schedule d i o :
  run schedule (init conn) = Some d →
  tasks d !! i = Some (Completed o) →
  ∃ s1 s2 d1 stmts,
    schedule = s1 ++ Acquire i :: s2 ∧
    run s1 (init conn) = Some d1 ∧
    tasks d1 !! i = Some (Waiting stmts) ∧
    o = (batch_on (_conn d1) stmts).2 ∧
    own_calls i (events d) = calls (batch_on (_conn d1) stmts).1.
Proof.
  intros Hrun Hi.
  destruct (run_atomic conn schedule d Hrun i (Completed o) Hi eq_refl)
    as (s1 & s2 & d1 & stmts & Hsched & Hrun1 & Hwait & Ho & Hown).
  by exists s1, s2, d1, stmts.
Qed.

End AdapterAtomic.

(** * More on the adapter: the lock and the handle *)

Section AdapterMore.
Context `{Sqlite3}.

(** X12.  In every state the driver can reach, the lock is taken exactly
    when some call of [batch] is between taking and releasing it, and while
    it is taken no waiting call can take it. *)
Theorem lock_taken_iff_held conn schedule d :
  run schedule (init conn) = Some d →
  (_conn_lock d = true ↔ ∃ i t, tasks d !! i = Some t ∧ holds_lock t = true) ∧
  ((∃ i t, tasks d !! i = Some t ∧ holds_lock t = true) →
     ∀ j, driver_step (Acquire j) d = None).
Proof.
  intros Hrun.
  pose proof (run_inv _ _ _ (init_inv conn) Hrun) as Hinv.
  assert ((∃ i t, tasks d !! i = Some t ∧ holds_lock t = true) →
          _conn_lock d = true) as Hheld.
  { intros (i & t & Hi & Ht). destruct (_conn_lock d) eqn:Hl; [done|].
    by rewrite (inv_free d Hinv Hl i t Hi) in Ht. }
  split; [split; [apply Hinv|done]|].
  intros Hsome j. cbn. rewrite (Hheld Hsome).
  by destruct (tasks d !! j) as [[| | | |]|].
Qed.

(** X13.  In every state the driver can reach, a call of [batch] that is
    still waiting for the lock has made no call on the handle. *)
Theorem no_call_before_lock conn schedule d i stmts :
  run schedule (init conn) = Some d →
  tasks d !! i = Some (Waiting stmts) →
  i ∉ (events d).*1.
Proof.
  intros Hrun Hi Hin.
  pose proof (run_inv _ _ _ (init_inv conn) Hrun) as Hinv.
  destruct (inv_started d Hinv i Hin) as (t & Ht & Hst). by simplify_eq.
Qed.

End AdapterMore.

Lemma lock_taken_iff_held_witness :
  ∃ d, run two_batches (init empty_t) = Some d ∧
    (_conn_lock d = true ↔ ∃ i t, tasks d !! i = Some t ∧ holds_lock t = true) ∧
    ((∃ i t, tasks d !! i = Some t ∧ holds_lock t = true) →
       ∀ j, driver_step (Acquire j) d = None).
Proof.
  eexists. split; [vm_compute; reflexivity|].
  apply (lock_taken_iff_held (H := engine) empty_t two_batches).
  vm_compute. reflexivity.
Defined.

Lemma no_call_before_lock_witness :
  ∃ d, run [Submit [stmt "SELECT * FROM t"]; Submit [stmt "SELECT * FROM t"];
            Acquire 1; Work 1; Work 1] (init empty_t) = Some d ∧
       0 ∉ (events d).*1.
Proof.
  eexists. split; [vm_compute; reflexivity|].
  apply (no_call_before_lock (H := engine) empty_t
           [Submit [stmt "SELECT * FROM t"]; Submit [stmt "SELECT * FROM t"];
            Acquire 1; Work 1; Work 1] _ 0 [stmt "SELECT * FROM t"]).
  - vm_compute. reflexivity.
  - reflexivity.
Defined.

(** * Cancellation and closing while batches run *)

Section EventFacts.
Context {E : Sqlite3} {C : Sqlite3Close E}.








(** A run of steps of calls of [batch] alone is a run of the driver. *)
Lemma run_events_steps schedule : ∀ r,
  run_events (Step <$> schedule) r =
    (λ d, {| driver := d; orphans := orphans r |}) <$> run schedule (driver r).
Proof.
  induction schedule as [|a schedule IH]; intros r.
  - by destruct r.
  - cbn. destruct (driver_step a (driver r)) as [d|]; [|done]. cbn.
    by rewrite IH.
Qed.


(** X14.  In a run in which no call is cancelled and [close] is not called,
    whatever the schedule of the calls: every call of [batch] that has come
    back took the lock at some point of the schedule as a waiting call with
    its statements, what it gives its caller is the outcome of [_batch] run
    in one piece on the handle as it was at that point, and the calls it
    has made on the handle are the calls of that run. *)
Theorem batch_call_is_atomic conn schedule r i o :
  run_events (Step <$> schedule) (start conn) = Some r →
  tasks (driver r) !! i = Some (Completed o) →
  ∃ s1 s2 r1 stmts,
    schedule = s1 ++ Acquire i :: s2 ∧
    run_events (Step <$> s1) (start conn) = Some r1 ∧
    tasks (driver r1) !! i = Some (Waiting stmts) ∧
    o = (batch_on (_conn (driver r1)) stmts).2 ∧
    own_calls i (events (driver r)) = calls (batch_on (_conn (driver r1)) stmts).1.
Proof.
  rewrite run_events_steps. cbn [start driver orphans].
  destruct (run schedule (init conn)) as [d|] eqn:Hrun; [|done].
  intros [= <-] Hi. cbn in Hi.
  destruct (run_call_is_atomic conn schedule d i o Hrun Hi)
    as (s1 & s2 & d1 & stmts & Hsched & Hrun1 & Hwait & Ho & Hown).
  exists s1, s2, {| driver := d1; orphans := ∅ |}, stmts.
  split; [done|]. split; [|done].
  rewrite run_events_steps. cbn [start driver orphans]. by rewrite Hrun1.
Qed.

End EventFacts.


Lemma batch_call_is_atomic_witness :
  ∃ r o, run_events (C := engine_close) (Step <$> two_batches) (start empty_t) = Some r ∧
    tasks (driver r) !! 1 = Some (Completed o) ∧
    ∃ s1 s2 r1 stmts,
      two_batches = s1 ++ Acquire 1 :: s2 ∧
      run_events (C := engine_close) (Step <$> s1) (start empty_t) = Some r1 ∧
      tasks (driver r1) !! 1 = Some (Waiting stmts) ∧
      o = (batch_on (_conn (driver r1)) stmts).2 ∧
      own_calls 1 (events (driver r)) =
        calls (batch_on (_conn (driver r1)) stmts).1.
Proof.
  eexists _, _. split; [vm_compute; reflexivity|]. split; [reflexivity|].
  apply (batch_call_is_atomic (C := engine_close) empty_t two_batches);
    [vm_compute; reflexivity|reflexivity].
Defined.

(** C3 (the code departs from the claim).  Two calls of [batch] on the
    reference engine; the first is cancelled at
    [await loop.run_in_executor(...)] while its worker is between its two
    statements.  [CancelledError] leaves the [async with] block and frees
    the lock, the second call takes it, and the worker of the first call,
    which cannot be stopped, runs on: the rollback of the second batch falls
    between the two statements of the first, and the second statement of
    the first falls between the rollback and the statement of the second.
    Neither batch makes all its calls on the handle before the other. *)
Theorem cancelled_batch_interleaves :
  ∃ r, run_events (C := engine_close) cancelled_midway (start empty_t) = Some r ∧
    events (driver r) =
      [(0, CallRollback); (0, CallExecute (stmt "SELECT * FROM t"));
       (1, CallRollback); (0, CallExecute (stmt "SELECT * FROM t"));
       (1, CallExecute (stmt "SELECT 1 AS a, 2 AS a"))] ∧
    ¬ (precedes (events (driver r)).*1 0 1 ∨ precedes (events (driver r)).*1 1 0).
Proof.
  eexists. split; [vm_compute; reflexivity|]. split; [reflexivity|].
  intros [Hprec|Hprec].
  - specialize (Hprec 3 2 eq_refl eq_refl). lia.
  - specialize (Hprec 2 0 eq_refl eq_refl). lia.
Qed.
